(** * A first-fit heap allocator over a static arena

    Shallow embedding of [malloc-and-free.c]: [init_heap], [malloc] and
    [free] over a flat memory, together with the block chain they maintain.

    Modelling conventions.
    - Memory is one address space, a total map from addresses to scalar
      values, shared by headers and payloads; a scalar object (a [size_t],
      a pointer, an [int]) lives in the cell at its first byte address,
      and a store changes that one cell.  This is exact as long as scalars
      are read and written at the addresses of header members, which is
      the case for every header of a chain; statements about other
      pointers speak of the whole header slot.
      The three members of [block_header_t] sit at the offsets [OFF_SIZE],
      [OFF_NEXT] and [OFF_FREE] of the header, and a header occupies the
      [HEADER_SIZE] addresses from its own.
    - [size_t] arithmetic wraps modulo [2 ^ wbits]; pointers are addresses
      in [Z], pointer arithmetic is exact and [NULL] is [0].
    - Reading or writing a member through a null pointer is a [Fault];
      any other address can be read and written, as on a bare-metal
      target.
    - The two [while] loops take a fuel argument; running out of fuel is
      the distinguished outcome [Timeout]. *)

From Stdlib Require Import ZArith List Lia Bool.
Import ListNotations.
Local Open Scope Z_scope.

(** ** Memory and outcomes *)

Definition mem := Z -> Z.

Definition upd (m : mem) (a v : Z) : mem :=
  fun x => if x =? a then v else m x.

Inductive outcome (A : Type) : Type :=
| Done (a : A)
| Fault
| Timeout.
Arguments Done {A} a.
Arguments Fault {A}.
Arguments Timeout {A}.

Definition bind {A B : Type} (c : outcome A) (k : A -> outcome B) : outcome B :=
  match c with
  | Done a => k a
  | Fault => Fault
  | Timeout => Timeout
  end.

Notation "x <- c ;; k" := (bind c (fun x => k))
  (at level 61, c at next level, right associativity).

(** [p->member] as an rvalue and as an lvalue. *)
Definition load (m : mem) (p off : Z) : outcome Z :=
  if p =? 0 then Fault else Done (m (p + off)).

Definition store (m : mem) (p off v : Z) : outcome mem :=
  if p =? 0 then Fault else Done (upd m (p + off) v).

(** [#define HEAP_SIZE (64 * 1024)] *)
Definition HEAP_SIZE : Z := 64 * 1024.

(** The allocator's global state: the contents of memory (which holds
    [heap_area]) and the variable [free_list]. *)
Record state : Type := { heap : mem; free_list : Z }.

(** A block of the chain as the invariants see it: the address of its
    header, its [size] member and whether its [free] member is non-zero. *)
Record block : Type := { b_addr : Z; b_size : Z; b_free : bool }.

(** What the source leaves to the target: the width [wbits] of [size_t],
    [sizeof (block_header_t)], the offsets of the members [next] and [free]
    ([size] is the first member, at offset 0) and the address of
    [heap_area]. *)
Class platform : Type := {
  wbits : Z;
  HEADER_SIZE : Z;
  OFF_NEXT : Z;
  OFF_FREE : Z;
  heap_area : Z
}.

(** The members lie inside the header in declaration order, the arena
    holds at least one header, [size_t] can count the arena and
    [heap_area] is not at address 0. *)
Definition abi_ok (P : platform) : Prop :=
  0 < OFF_NEXT /\ OFF_NEXT < OFF_FREE /\ OFF_FREE < HEADER_SIZE /\
  HEADER_SIZE <= HEAP_SIZE /\ HEAP_SIZE + 8 < 2 ^ wbits /\ 0 < heap_area.

Section Allocator.

Context {P : platform}.

Definition OFF_SIZE : Z := 0.

Definition wrap (x : Z) : Z := x mod 2 ^ wbits.

(** [(size + 7) & ~7] on [size_t]. *)
Definition align (size : Z) : Z :=
  Z.land (wrap (size + 7)) (wrap (Z.lnot 7)).

(** *** [init_heap]
    [free_list] is set to [heap_area], the address of a static array. *)
Definition init_heap (st : state) : state :=
  let fl := heap_area in
  let m1 := upd (heap st) (fl + OFF_SIZE) (wrap (HEAP_SIZE - HEADER_SIZE)) in
  let m2 := upd m1 (fl + OFF_NEXT) 0 in
  let m3 := upd m2 (fl + OFF_FREE) 1 in
  {| heap := m3; free_list := fl |}.

(** *** [malloc]
    The body of the [if] that splits the chosen block. *)
Definition split_block (m : mem) (current size : Z) : outcome mem :=
  let new_block := current + HEADER_SIZE + size in
  csize <- load m current OFF_SIZE ;;
  m <- store m new_block OFF_SIZE (wrap (csize - size - HEADER_SIZE)) ;;
  cnext <- load m current OFF_NEXT ;;
  m <- store m new_block OFF_NEXT cnext ;;
  m <- store m new_block OFF_FREE 1 ;;
  m <- store m current OFF_SIZE size ;;
  store m current OFF_NEXT new_block.

(** The [while (current)] loop of [malloc]; [size] is already aligned.
    The local [prev] is assigned and never read, so it is left out. *)
Fixpoint malloc_loop (fuel : nat) (m : mem) (current size : Z)
  : outcome (Z * mem) :=
  match fuel with
  | O => Timeout
  | S fuel' =>
      if current =? 0 then Done (0, m)
      else
        cfree <- load m current OFF_FREE ;;
        fit <- (if cfree =? 0 then Done false
                else csize <- load m current OFF_SIZE ;;
                     Done (size <=? csize)) ;;
        if fit : bool then
          csize <- load m current OFF_SIZE ;;
          m1 <- (if wrap (size + HEADER_SIZE + 8) <=? csize
                 then split_block m current size
                 else Done m) ;;
          m2 <- store m1 current OFF_FREE 0 ;;
          Done (current + HEADER_SIZE, m2)
        else
          cnext <- load m current OFF_NEXT ;;
          malloc_loop fuel' m cnext size
  end.

Definition malloc (fuel : nat) (st : state) (size : Z)
  : outcome (Z * state) :=
  r <- malloc_loop fuel (heap st) (free_list st) (align size) ;;
  Done (fst r, {| heap := snd r; free_list := free_list st |}).

(** *** [free]
    The coalescing loop. *)
Fixpoint free_loop (fuel : nat) (m : mem) (current : Z) : outcome mem :=
  match fuel with
  | O => Timeout
  | S fuel' =>
      if current =? 0 then Done m
      else
        cfree <- load m current OFF_FREE ;;
        both <- (if cfree =? 0 then Done false
                 else cnext <- load m current OFF_NEXT ;;
                      if cnext =? 0 then Done false
                      else nfree <- load m cnext OFF_FREE ;;
                           Done (negb (nfree =? 0))) ;;
        if both : bool then
          csize <- load m current OFF_SIZE ;;
          cnext <- load m current OFF_NEXT ;;
          nsize <- load m cnext OFF_SIZE ;;
          m1 <- store m current OFF_SIZE
                  (wrap (csize + wrap (HEADER_SIZE + nsize))) ;;
          cnext1 <- load m1 current OFF_NEXT ;;
          nnext <- load m1 cnext1 OFF_NEXT ;;
          m2 <- store m1 current OFF_NEXT nnext ;;
          free_loop fuel' m2 current
        else
          cnext <- load m current OFF_NEXT ;;
          free_loop fuel' m cnext
  end.

Definition free (fuel : nat) (st : state) (ptr : Z) : outcome state :=
  if ptr =? 0 then Done st
  else
    let blk := ptr - HEADER_SIZE in
    m <- store (heap st) blk OFF_FREE 1 ;;
    m' <- free_loop fuel m (free_list st) ;;
    Done {| heap := m'; free_list := free_list st |}.

(** ** The chain read off memory *)

(** [chain m p l]: following [next] from [p] visits exactly the headers
    listed in [l] and then reaches [NULL]. *)
Fixpoint chain (m : mem) (p : Z) (l : list block) : Prop :=
  match l with
  | [] => p = 0
  | b :: l' =>
      p <> 0 /\ p = b_addr b /\
      m (p + OFF_SIZE) = b_size b /\
      negb (m (p + OFF_FREE) =? 0) = b_free b /\
      chain m (m (p + OFF_NEXT)) l'
  end.

(** [tiles a l e]: the blocks of [l], header and payload, fill the address
    range from [a] to [e] in list order, without gaps or overlaps. *)
Fixpoint tiles (a : Z) (l : list block) (e : Z) : Prop :=
  match l with
  | [] => a = e
  | b :: l' =>
      b_addr b = a /\ 0 <= b_size b /\
      tiles (a + HEADER_SIZE + b_size b) l' e
  end.

(** The headers of [l] are pairwise non-overlapping slots. *)
Fixpoint sep (l : list block) : Prop :=
  match l with
  | [] => True
  | b :: l' =>
      Forall (fun c => HEADER_SIZE <= Z.abs (b_addr c - b_addr b)) l' /\ sep l'
  end.

Definition heap_inv (st : state) (l : list block) : Prop :=
  chain (heap st) (free_list st) l /\
  tiles heap_area l (heap_area + HEAP_SIZE).

(** Sum of header size plus payload size over the chain. *)
Fixpoint footprint (l : list block) : Z :=
  match l with
  | [] => 0
  | b :: l' => HEADER_SIZE + b_size b + footprint l'
  end.

Fixpoint increasing (l : list Z) : Prop :=
  match l with
  | [] => True
  | a :: l' =>
      match l' with
      | [] => True
      | b :: _ => a < b
      end /\ increasing l'
  end.

Fixpoint no_adjacent_free (l : list block) : Prop :=
  match l with
  | [] => True
  | b :: l' =>
      match l' with
      | [] => True
      | c :: _ => ~ (b_free b = true /\ b_free c = true)
      end /\ no_adjacent_free l'
  end.

(** ** The operations on the chain *)

(** [current->free && current->size >= size] *)
Definition fits (rsz : Z) (b : block) : bool :=
  b_free b && (rsz <=? b_size b).

(** [current->size >= size + HEADER_SIZE + 8] *)
Definition splits (rsz : Z) (b : block) : bool :=
  wrap (rsz + HEADER_SIZE + 8) <=? b_size b.

Definition taken (b : block) : block :=
  {| b_addr := b_addr b; b_size := b_size b; b_free := false |}.

Definition carve (rsz : Z) (b : block) : list block :=
  if splits rsz b then
    [ {| b_addr := b_addr b; b_size := rsz; b_free := false |};
      {| b_addr := b_addr b + HEADER_SIZE + rsz;
         b_size := wrap (b_size b - rsz - HEADER_SIZE);
         b_free := true |} ]
  else [ taken b ].

Fixpoint alloc_chain (rsz : Z) (l : list block) : list block :=
  match l with
  | [] => []
  | b :: l' =>
      if fits rsz b then carve rsz b ++ l' else b :: alloc_chain rsz l'
  end.

(** The cells [malloc] may write when it chooses block [c]. *)
Definition malloc_writes (rsz : Z) (c : block) (x : Z) : Prop :=
  (b_addr c <= x < b_addr c + HEADER_SIZE) \/
  (splits rsz c = true /\
   b_addr c + HEADER_SIZE + rsz <= x <
   b_addr c + HEADER_SIZE + rsz + HEADER_SIZE).

Definition merge (b n : block) : block :=
  {| b_addr := b_addr b;
     b_size := wrap (b_size b + wrap (HEADER_SIZE + b_size n));
     b_free := b_free b |}.

(** The coalescing pass with [c] the node under [current] and [rest] the
    chain after it. *)
Fixpoint coalesce_from (c : block) (rest : list block) : list block :=
  match rest with
  | [] => [c]
  | n :: rest' =>
      if b_free c && b_free n then coalesce_from (merge c n) rest'
      else c :: coalesce_from n rest'
  end.

Definition coalesce (l : list block) : list block :=
  match l with
  | [] => []
  | c :: rest => coalesce_from c rest
  end.

Definition mark_free (a : Z) (l : list block) : list block :=
  map (fun b => if b_addr b =? a
                then {| b_addr := b_addr b; b_size := b_size b; b_free := true |}
                else b) l.

(** The nodes of [l] that take up their successor: those that are free
    and followed by a free node. *)
Definition next_free (l : list block) : bool :=
  match l with
  | [] => false
  | c :: _ => b_free c
  end.

Fixpoint absorbing (l : list block) : list block :=
  match l with
  | [] => []
  | b :: l' =>
      (if b_free b && next_free l' then [b] else []) ++ absorbing l'
  end.

(** The cells [free] may write: the flag of the released block and the
    [size] and [next] members of nodes that take up their successor. *)
Definition free_writes (blk : Z) (l : list block) (x : Z) : Prop :=
  x = blk + OFF_FREE \/
  exists b, In b (absorbing l) /\
            (x = b_addr b + OFF_SIZE \/ x = b_addr b + OFF_NEXT).

(** The payload of block [b]. *)
Definition payload (b : block) (x : Z) : Prop :=
  b_addr b + HEADER_SIZE <= x < b_addr b + HEADER_SIZE + b_size b.

(** The extent of block [b]: header and payload. *)
Definition extent (b : block) (x : Z) : Prop :=
  b_addr b <= x < b_addr b + HEADER_SIZE + b_size b.

(** Memory [m'] agrees with [m] on the cells in [R]. *)
Definition unchanged_on (R : Z -> Prop) (m m' : mem) : Prop :=
  forall x, R x -> m' x = m x.

(** States the program can be in: after [init_heap], after a [malloc]
    that returned, after a [free] of [NULL] or of the payload pointer of a
    block of the chain that returned, and after the caller wrote into the
    payload of a block it holds. *)
Inductive reachable : state -> Prop :=
| reach_init st :
    reachable (init_heap st)
| reach_malloc st fuel n p st' :
    reachable st ->
    malloc fuel st n = Done (p, st') ->
    reachable st'
| reach_free st fuel ptr st' l :
    reachable st ->
    chain (heap st) (free_list st) l ->
    ptr = 0 \/ In (ptr - HEADER_SIZE) (map b_addr l) ->
    free fuel st ptr = Done st' ->
    reachable st'
| reach_write st l b x v :
    reachable st ->
    chain (heap st) (free_list st) l ->
    In b l -> b_free b = false -> payload b x ->
    reachable {| heap := upd (heap st) x v; free_list := free_list st |}.

(** Every block of [l] has a size that is a multiple of 8. *)
Definition sizes_aligned (l : list block) : Prop :=
  Forall (fun b => (8 | b_size b)) l.

(** The block [init_heap] creates. *)
Definition whole_arena : block :=
  {| b_addr := heap_area; b_size := HEAP_SIZE - HEADER_SIZE; b_free := true |}.


End Allocator.

(** ** A concrete target

    An LP64 target: 64-bit [size_t] and pointers, a 24-byte header with
    [next] at offset 8 and [free] at offset 16, and the arena at address
    4096. *)
Definition lp64 : platform :=
  {| wbits := 64; HEADER_SIZE := 24; OFF_NEXT := 8; OFF_FREE := 16;
     heap_area := 4096 |}.

(** The state before [init_heap]: [free_list] is [NULL] and the arena, a
    zero-initialised static array, holds zeros. *)
Definition boot : state := {| heap := fun _ => 0; free_list := 0 |}.

(** The state right after [init_heap] on [lp64]. *)
Definition fresh : state := @init_heap lp64 boot.

(** A state with several blocks: three allocations of 100, 200 and 50
    bytes, then the first one released. *)
Definition state_after (r : outcome (Z * state)) : state :=
  match r with
  | Done (_, st) => st
  | _ => boot
  end.

Definition released (r : outcome state) : state :=
  match r with
  | Done st => st
  | _ => boot
  end.

Definition busy1 : state := state_after (@malloc lp64 2 fresh 100).
Definition busy2 : state := state_after (@malloc lp64 3 busy1 200).
Definition busy3 : state := state_after (@malloc lp64 4 busy2 50).
Definition busy : state := released (@free lp64 5 busy3 4120).

Definition blkA : block := {| b_addr := 4096; b_size := 104; b_free := true |}.
Definition blkB : block := {| b_addr := 4224; b_size := 200; b_free := false |}.
Definition blkC : block := {| b_addr := 4448; b_size := 56; b_free := false |}.
Definition blkR : block := {| b_addr := 4528; b_size := 65080; b_free := true |}.
Definition busy_chain : list block := [blkA; blkB; blkC; blkR].

(** The only block after [init_heap] on [lp64]. *)
Definition blk0 : block :=
  {| b_addr := 4096; b_size := 65512; b_free := true |}.

(** [busy] after a further request of 150 bytes, and [busy] with its
    block of 56 bytes released. *)
Definition busy4 : state := state_after (@malloc lp64 6 busy 150).
Definition busy5 : state := released (@free lp64 5 busy 4472).

Definition blkA1 : block :=
  {| b_addr := 4096; b_size := 104; b_free := false |}.
Definition blkR1 : block :=
  {| b_addr := 4224; b_size := 65384; b_free := true |}.
Definition blkCR : block :=
  {| b_addr := 4448; b_size := 65160; b_free := true |}.


(** A state whose chain is finite but whose two headers overlap: the
    node at 4104 is followed by a node at 4096, so the [size] of the
    first is the [next] of the second and the [next] of the first is the
    [free] flag of the second. *)
Definition tangled : state :=
  {| heap := upd (upd (fun _ => 0) 4096 4080) 4112 4096;
     free_list := 4104 |}.

Definition tangled_chain : list block :=
  [ {| b_addr := 4104; b_size := 0; b_free := false |};
    {| b_addr := 4096; b_size := 4080; b_free := true |} ].


Section Correctness.

Context {P : platform}.
Hypothesis ABI : abi_ok P.

(** ** Memory and chain lemmas *)

Lemma upd_same m a v : upd m a v a = v.
Proof. unfold upd. now rewrite Z.eqb_refl. Qed.

Lemma upd_other m a v x : x <> a -> upd m a v x = m x.
Proof. unfold upd. intros Hx. apply Z.eqb_neq in Hx. now rewrite Hx. Qed.

Lemma load_ok m p off : p <> 0 -> load m p off = Done (m (p + off)).
Proof. unfold load. intros Hp. apply Z.eqb_neq in Hp. now rewrite Hp. Qed.

Lemma store_ok m p off v :
  p <> 0 -> store m p off v = Done (upd m (p + off) v).
Proof. unfold store. intros Hp. apply Z.eqb_neq in Hp. now rewrite Hp. Qed.

Lemma store_ok_bind (c : outcome mem) cur :
  cur <> 0 ->
  (m1 <- c ;; m2 <- store m1 cur OFF_FREE 0 ;;
   Done (cur + HEADER_SIZE, m2)) =
  (m1 <- c ;; Done (cur + HEADER_SIZE, upd m1 (cur + OFF_FREE) 0)).
Proof.
  intros Hc. destruct c; cbn [bind]; try reflexivity.
  now rewrite store_ok.
Qed.

Lemma wrap_small x : 0 <= x <= HEAP_SIZE + 8 -> wrap x = x.
Proof.
  intros Hx. unfold wrap. apply Z.mod_small.
  destruct ABI as (_ & _ & _ & _ & Hw & _). lia.
Qed.

Lemma chain_frame m m' : forall l p,
  chain m p l ->
  (forall b, In b l ->
     m' (b_addr b + OFF_SIZE) = m (b_addr b + OFF_SIZE) /\
     m' (b_addr b + OFF_NEXT) = m (b_addr b + OFF_NEXT) /\
     m' (b_addr b + OFF_FREE) = m (b_addr b + OFF_FREE)) ->
  chain m' p l.
Proof.
  induction l as [|b l IH]; simpl; intros p Hc Hsame; [exact Hc|].
  destruct Hc as (Hp & Hpb & Hs & Hf & Hn).
  destruct (Hsame b (or_introl eq_refl)) as (E1 & E2 & E3).
  subst p. rewrite E1, E2, E3. repeat split; auto.
Qed.

Lemma chain_det m : forall l l' p, chain m p l -> chain m p l' -> l = l'.
Proof.
  induction l as [|b l IH]; intros [|b' l'] p; simpl; intros H1 H2.
  - reflexivity.
  - destruct H2 as (Hp & _). contradiction.
  - destruct H1 as (Hp & _). contradiction.
  - destruct H1 as (_ & A1 & S1 & F1 & N1), H2 as (_ & A2 & S2 & F2 & N2).
    f_equal; [|eapply IH; eassumption].
    destruct b, b'; simpl in *; congruence.
Qed.

Lemma chain_addr_nonnull m : forall l p b,
  chain m p l -> In b l -> b_addr b <> 0.
Proof.
  induction l as [|c l IH]; simpl; intros p b Hc Hin; [contradiction|].
  destruct Hc as (Hp & Hpc & _ & _ & Hn).
  destruct Hin as [<-|Hin]; [congruence | eauto].
Qed.

(** ** Tiling lemmas *)

Lemma tiles_bounds : forall l a e,
  0 <= HEADER_SIZE -> tiles a l e ->
  a <= e /\
  forall b, In b l -> a <= b_addr b /\ b_addr b + HEADER_SIZE + b_size b <= e.
Proof.
  induction l as [|c l IH]; simpl; intros a e HH Ht.
  - split; [lia | contradiction].
  - destruct Ht as (Ha & Hs & Ht). destruct (IH _ _ HH Ht) as (Hle & Hall).
    split; [lia|]. intros b [<-|Hin]; [lia|].
    destruct (Hall b Hin). lia.
Qed.

Lemma tiles_app : forall l1 l2 a e,
  tiles a (l1 ++ l2) e <-> exists mid, tiles a l1 mid /\ tiles mid l2 e.
Proof.
  induction l1 as [|c l1 IH]; simpl; intros l2 a e.
  - split; [intros Ht; exists a; auto | intros (mid & -> & Ht); exact Ht].
  - split.
    + intros (Ha & Hs & Ht). apply IH in Ht. destruct Ht as (mid & H1 & H2).
      exists mid. auto.
    + intros (mid & (Ha & Hs & H1) & H2). repeat split; auto.
      apply IH. exists mid. auto.
Qed.

Lemma tiles_footprint : forall l a e, tiles a l e -> footprint l = e - a.
Proof.
  induction l as [|c l IH]; simpl; intros a e Ht.
  - lia.
  - destruct Ht as (Ha & Hs & Ht). rewrite (IH _ _ Ht). lia.
Qed.

Lemma tiles_increasing : forall l a e,
  0 < HEADER_SIZE -> tiles a l e -> increasing (map b_addr l).
Proof.
  induction l as [|c l IH]; intros a e HH Ht; [exact I|].
  destruct Ht as (Ha & Hs & Ht). split; [|eapply IH; eauto].
  destruct l as [|d l]; simpl; [exact I|].
  destruct Ht as (Hd & _). lia.
Qed.

Lemma tiles_sep : forall l a e,
  0 < HEADER_SIZE -> tiles a l e -> sep l.
Proof.
  induction l as [|c l IH]; simpl; intros a e HH Ht; [exact I|].
  destruct Ht as (Ha & Hs & Ht). split; [|eapply IH; eauto].
  apply Forall_forall. intros d Hin.
  destruct (tiles_bounds _ _ _ (Z.lt_le_incl _ _ HH) Ht) as (_ & Hall).
  destruct (Hall d Hin). lia.
Qed.

Ltac abi :=
  destruct ABI as (Hon & Hof & Hoh & HhH & Hw & Hbase); unfold OFF_SIZE in *.

Ltac upd_norm :=
  unfold OFF_SIZE in *;
  repeat first [rewrite upd_same | rewrite upd_other by lia].

(** ** [malloc] refines [alloc_chain] *)

Lemma find_first : forall (f : block -> bool) l1 c l2,
  (forall b, In b l1 -> f b = false) -> f c = true ->
  find f (l1 ++ c :: l2) = Some c.
Proof.
  induction l1 as [|b l1 IH]; simpl; intros c l2 Hno Hc.
  - now rewrite Hc.
  - rewrite (Hno b (or_introl eq_refl)). apply IH; auto.
Qed.


Lemma alloc_chain_first rsz : forall l1 c l2,
  (forall b, In b l1 -> fits rsz b = false) -> fits rsz c = true ->
  alloc_chain rsz (l1 ++ c :: l2) = l1 ++ carve rsz c ++ l2.
Proof.
  induction l1 as [|b l1 IH]; simpl; intros c l2 Hno Hc.
  - now rewrite Hc.
  - rewrite (Hno b (or_introl eq_refl)). f_equal. apply IH; auto.
Qed.


(** One iteration of the search loop at a non-null [current]. *)
Lemma malloc_loop_step fuel m cur rsz :
  cur <> 0 ->
  malloc_loop (S fuel) m cur rsz =
  if negb (m (cur + OFF_FREE) =? 0) && (rsz <=? m (cur + OFF_SIZE)) then
    m1 <- (if wrap (rsz + HEADER_SIZE + 8) <=? m (cur + OFF_SIZE)
           then split_block m cur rsz else Done m) ;;
    m2 <- store m1 cur OFF_FREE 0 ;;
    Done (cur + HEADER_SIZE, m2)
  else malloc_loop fuel m (m (cur + OFF_NEXT)) rsz.
Proof.
  intros Hc. simpl. rewrite !load_ok by assumption.
  apply Z.eqb_neq in Hc. rewrite Hc. simpl.
  destruct (m (cur + OFF_FREE) =? 0); simpl; [reflexivity|].
  destruct (rsz <=? m (cur + OFF_SIZE)); reflexivity.
Qed.

Lemma split_block_ok m cur rsz :
  cur <> 0 -> cur + HEADER_SIZE + rsz <> 0 ->
  cur + OFF_NEXT <> cur + HEADER_SIZE + rsz + OFF_SIZE ->
  split_block m cur rsz =
  let nb := cur + HEADER_SIZE + rsz in
  Done (upd (upd (upd (upd (upd m
          (nb + OFF_SIZE) (wrap (m (cur + OFF_SIZE) - rsz - HEADER_SIZE)))
          (nb + OFF_NEXT) (m (cur + OFF_NEXT)))
          (nb + OFF_FREE) 1)
          (cur + OFF_SIZE) rsz)
          (cur + OFF_NEXT) nb).
Proof.
  intros Hc Hn Hd. unfold split_block. cbv zeta.
  repeat (first [rewrite load_ok by assumption
                | rewrite store_ok by assumption]; cbn [bind]).
  rewrite upd_other by assumption. reflexivity.
Qed.

Lemma malloc_loop_refines rsz : 0 <= rsz ->
  forall l a e m cur fuel,
  chain m cur l -> tiles a l e -> 0 < a -> e - a <= HEAP_SIZE ->
  (length l < fuel)%nat ->
  match find (fits rsz) l with
  | None => malloc_loop fuel m cur rsz = Done (0, m)
  | Some c =>
      exists m',
        malloc_loop fuel m cur rsz = Done (b_addr c + HEADER_SIZE, m') /\
        chain m' cur (alloc_chain rsz l) /\
        (forall x, ~ malloc_writes rsz c x -> m' x = m x) /\
        (forall x, x < a \/ e <= x -> m' x = m x)
  end.
Proof.
  intros Hrsz. induction l as [|b l IH]; intros a e m cur fuel Hc Ht Ha He Hf.
  - simpl in *. subst cur. destruct fuel; [simpl in Hf; lia|]. reflexivity.
  - destruct fuel as [|fuel]; [simpl in Hf; lia|].
    simpl in Hf. apply PeanoNat.lt_S_n in Hf.
    destruct Hc as (Hp & Hpb & Hs & Hfl & Hn).
    destruct Ht as (Hba & Hbs & Ht).
    assert (HH : 0 <= HEADER_SIZE) by (abi; lia).
    destruct (tiles_bounds _ _ _ HH Ht) as (Hle & Hall).
    rewrite malloc_loop_step by assumption.
    simpl find. simpl alloc_chain. unfold fits at 1 3.
    rewrite Hfl, Hs.
    destruct (b_free b && (rsz <=? b_size b)) eqn:Hfit.
    + (* the block under [current] is chosen *)
      apply andb_prop in Hfit. destruct Hfit as (Hfree & Hge).
      apply Z.leb_le in Hge.
      unfold carve, malloc_writes, splits.
      destruct (wrap (rsz + HEADER_SIZE + 8) <=? b_size b) eqn:Hsp.
      * rewrite wrap_small in Hsp by (abi; lia). apply Z.leb_le in Hsp.
        rewrite split_block_ok by (abi; lia).
        cbv zeta. cbn [bind]. rewrite store_ok by assumption. cbn [bind].
        rewrite Hs. eexists. split; [subst cur; reflexivity|].
        split; [|split].
        -- cbn [app chain b_addr b_size b_free]. abi.
           subst cur. upd_norm.
           repeat split; try assumption; try lia; try reflexivity.
           eapply chain_frame; [exact Hn|]. intros d Hd.
           destruct (Hall d Hd). upd_norm. auto.
        -- intros x Hx. abi. upd_norm. reflexivity.
        -- intros x Hx. abi. upd_norm. reflexivity.
      * cbn [bind]. rewrite store_ok by assumption. cbn [bind].
        eexists. split; [subst cur; reflexivity|].
        split; [|split].
        -- cbn [app chain taken b_addr b_size b_free]. abi.
           subst cur. upd_norm.
           repeat split; try assumption; try lia; try reflexivity.
           eapply chain_frame; [exact Hn|]. intros d Hd.
           destruct (Hall d Hd). upd_norm. auto.
        -- intros x Hx. abi. upd_norm. reflexivity.
        -- intros x Hx. abi. upd_norm. reflexivity.
    + (* move to the next block *)
      specialize (IH _ _ m (m (cur + OFF_NEXT)) fuel Hn Ht).
      assert (Ha' : 0 < a + HEADER_SIZE + b_size b) by lia.
      assert (He' : e - (a + HEADER_SIZE + b_size b) <= HEAP_SIZE) by lia.
      specialize (IH Ha' He' Hf).
      destruct (find (fits rsz) l) as [c|]; [|exact IH].
      destruct IH as (m' & Hrun & Hch & Hfr & Hout).
      exists m'. split; [exact Hrun|]. split; [|split].
      * cbn [chain]. abi.
        rewrite !Hout by lia.
        repeat split; try assumption; try lia.
      * exact Hfr.
      * intros x Hx. apply Hout. lia.
Qed.


Lemma alloc_chain_tiles rsz : 0 <= rsz ->
  forall l a e, tiles a l e -> e - a <= HEAP_SIZE ->
  tiles a (alloc_chain rsz l) e.
Proof.
  intros Hrsz. induction l as [|b l IH]; intros a e Ht He; [exact Ht|].
  destruct Ht as (Hba & Hbs & Ht). simpl.
  assert (HH : 0 <= HEADER_SIZE) by (abi; lia).
  destruct (tiles_bounds _ _ _ HH Ht) as (Hle & _).
  destruct (fits rsz b) eqn:Hfit.
  - unfold fits in Hfit. apply andb_prop in Hfit. destruct Hfit as (_ & Hge).
    apply Z.leb_le in Hge. unfold carve, splits.
    destruct (wrap (rsz + HEADER_SIZE + 8) <=? b_size b) eqn:Hsp.
    + rewrite wrap_small in Hsp by (abi; lia). apply Z.leb_le in Hsp.
      rewrite wrap_small by (abi; lia). cbn [app tiles b_addr b_size].
      repeat split; try lia.
      replace (a + HEADER_SIZE + rsz + HEADER_SIZE +
               (b_size b - rsz - HEADER_SIZE))
        with (a + HEADER_SIZE + b_size b) by lia.
      exact Ht.
    + cbn [app tiles taken b_addr b_size]. auto.
  - cbn [tiles]. repeat split; auto. apply IH; [exact Ht | lia].
Qed.

(** ** [free] refines [coalesce] after [mark_free] *)

Lemma free_loop_step fuel m cur :
  cur <> 0 ->
  free_loop (S fuel) m cur =
  if negb (m (cur + OFF_FREE) =? 0) && negb (m (cur + OFF_NEXT) =? 0) &&
     negb (m (m (cur + OFF_NEXT) + OFF_FREE) =? 0)
  then
    let m1 := upd m (cur + OFF_SIZE)
                (wrap (m (cur + OFF_SIZE) +
                       wrap (HEADER_SIZE + m (m (cur + OFF_NEXT) + OFF_SIZE)))) in
    free_loop fuel
      (upd m1 (cur + OFF_NEXT) (m1 (m (cur + OFF_NEXT) + OFF_NEXT))) cur
  else free_loop fuel m (m (cur + OFF_NEXT)).
Proof.
  intros Hc. simpl. rewrite !load_ok by assumption.
  apply Z.eqb_neq in Hc. rewrite Hc. cbn [bind].
  destruct (m (cur + OFF_FREE) =? 0); cbn [bind negb andb]; [reflexivity|].
  destruct (m (cur + OFF_NEXT) =? 0) eqn:Hn; cbn [bind negb andb];
    [reflexivity|].
  apply Z.eqb_neq in Hn. rewrite !load_ok by assumption. cbn [bind].
  destruct (m (m (cur + OFF_NEXT) + OFF_FREE) =? 0); cbn [bind negb];
    [reflexivity|].
  apply Z.eqb_neq in Hc.
  rewrite store_ok by assumption. cbn [bind].
  rewrite load_ok by assumption. cbn [bind].
  assert (E : upd m (cur + OFF_SIZE)
                (wrap (m (cur + OFF_SIZE) +
                       wrap (HEADER_SIZE + m (m (cur + OFF_NEXT) + OFF_SIZE))))
                (cur + OFF_NEXT) = m (cur + OFF_NEXT)).
  { abi. apply upd_other. lia. }
  rewrite E. rewrite load_ok by assumption. cbn [bind].
  rewrite store_ok by assumption. reflexivity.
Qed.

Lemma coalesce_from_head : forall rest c,
  exists c' tl, coalesce_from c rest = c' :: tl /\
                b_addr c' = b_addr c /\ b_free c' = b_free c.
Proof.
  induction rest as [|n rest IH]; simpl; intros c.
  - exists c, []. auto.
  - destruct (b_free c && b_free n).
    + destruct (IH (merge c n)) as (c' & tl & E & Ha & Hf).
      exists c', tl. auto.
    + exists c, (coalesce_from n rest). auto.
Qed.

Lemma absorbing_incl : forall l b,
  In b (absorbing l) -> In b l /\ b_free b = true.
Proof.
  induction l as [|c l IH]; simpl; intros b Hb; [contradiction|].
  apply in_app_or in Hb. destruct Hb as [Hb|Hb].
  - destruct (b_free c && next_free l) eqn:E; [|contradiction].
    destruct Hb as [<-|[]]. apply andb_prop in E. tauto.
  - destruct (IH b Hb). auto.
Qed.

Lemma absorbing_tail c l b : In b (absorbing l) -> In b (absorbing (c :: l)).
Proof. intros Hb. simpl. apply in_or_app. now right. Qed.

Lemma free_loop_refines : forall rest c m fuel,
  chain m (b_addr c) (c :: rest) -> sep (c :: rest) ->
  (length (c :: rest) < fuel)%nat ->
  exists m',
    free_loop fuel m (b_addr c) = Done m' /\
    chain m' (b_addr c) (coalesce_from c rest) /\
    (forall x,
       (forall b, In b (absorbing (c :: rest)) ->
                  x <> b_addr b + OFF_SIZE /\ x <> b_addr b + OFF_NEXT) ->
       m' x = m x).
Proof.
  induction rest as [|n rest IH]; intros c m fuel Hc Hsep Hf.
  - destruct Hc as (Hp & _ & Hs & Hfl & Hn). simpl in Hn.
    destruct fuel as [|[|fuel]]; simpl in Hf; try lia.
    rewrite free_loop_step by assumption. rewrite Hn.
    rewrite Z.eqb_refl. rewrite andb_false_r. cbn [andb].
    exists m. repeat split; auto.
  - destruct fuel as [|fuel]; [simpl in Hf; lia|].
    simpl in Hf. apply PeanoNat.lt_S_n in Hf.
    pose proof Hc as (Hp & _ & Hs & Hfl & Hn).
    pose proof Hn as (Hnp & Hnb & Hns & Hnf & Hnn).
    destruct Hsep as (Hfa & Hsep).
    pose proof (Forall_inv Hfa) as Hcn. cbv beta in Hcn.
    pose proof (Forall_inv_tail Hfa) as Hfa'.
    rewrite Forall_forall in Hfa'.
    rewrite free_loop_step by assumption.
    rewrite Hfl, Hnf, Hns, Hs, Hnb.
    apply Z.eqb_neq in Hnp. rewrite Hnb in Hnp. rewrite Hnp. cbn [negb].
    rewrite andb_true_r. cbn [coalesce_from].
    destruct (b_free c && b_free n) eqn:Hboth.
    + (* merge [n] into [c] and look at [c] again *)
      cbv zeta.
      set (m2 := upd _ (b_addr c + OFF_NEXT) _).
      assert (Hc2 : chain m2 (b_addr (merge c n)) (merge c n :: rest)).
      { cbn [chain merge b_addr b_size b_free]. subst m2. abi.
        upd_norm. repeat split; auto.
        rewrite Hnb in Hnn. eapply chain_frame; [exact Hnn|].
        intros d Hd. pose proof (Hfa' d Hd). upd_norm. auto. }
      assert (Hsep2 : sep (merge c n :: rest)).
      { destruct Hsep as (_ & Hsep). split; [|exact Hsep].
        apply Forall_forall. exact Hfa'. }
      destruct (IH (merge c n) m2 fuel Hc2 Hsep2 Hf) as (m' & Hrun & Hch & Hfr).
      exists m'. split; [exact Hrun|]. split; [exact Hch|].
      assert (Hcabs : In c (absorbing (c :: n :: rest))).
      { cbn [absorbing next_free]. rewrite Hboth. now left. }
      intros x Hx. rewrite Hfr.
      * destruct (Hx c Hcabs). subst m2. upd_norm. reflexivity.
      * intros b Hb. cbn [absorbing] in Hb. apply in_app_or in Hb.
        destruct Hb as [Hb|Hb].
        -- destruct (b_free (merge c n) && next_free rest); [|contradiction].
           destruct Hb as [<-|[]]. exact (Hx c Hcabs).
        -- apply Hx. do 2 apply absorbing_tail. exact Hb.
    + (* move on to [n] *)
      assert (Hf' : (length (n :: rest) < fuel)%nat) by exact Hf.
      rewrite Hnb in Hn.
      destruct (IH n m fuel Hn Hsep Hf') as (m' & Hrun & Hch & Hfr).
      exists m'. split; [exact Hrun|].
      assert (Hsame : forall off, 0 <= off < HEADER_SIZE ->
                m' (b_addr c + off) = m (b_addr c + off)).
      { intros off Hoff. apply Hfr. intros b Hb.
        apply absorbing_incl in Hb. destruct Hb as (Hb & _).
        assert (Hd : HEADER_SIZE <= Z.abs (b_addr b - b_addr c)).
        { destruct Hb as [<-|Hb]; [exact Hcn | exact (Hfa' b Hb)]. }
        abi. lia. }
      split.
      * destruct (coalesce_from_head rest n) as (n' & tl & E & Ea & Ef).
        cbn [chain]. abi.
        rewrite !Hsame by lia. repeat split; auto.
        rewrite Hnb. exact Hch.
      * intros x Hx. apply Hfr. intros b Hb. apply Hx.
        apply absorbing_tail. exact Hb.
Qed.

Lemma sep_pairs : forall l b d,
  sep l -> In b l -> In d l ->
  b_addr b = b_addr d \/ HEADER_SIZE <= Z.abs (b_addr b - b_addr d).
Proof.
  induction l as [|c l IH]; simpl; intros b d Hs Hb Hd; [contradiction|].
  destruct Hs as (Hfa & Hsep). rewrite Forall_forall in Hfa.
  destruct Hb as [<-|Hb], Hd as [<-|Hd].
  - now left.
  - right. pose proof (Hfa d Hd). lia.
  - right. exact (Hfa b Hb).
  - eauto.
Qed.

Lemma sep_mark_free a : forall l, sep l -> sep (mark_free a l).
Proof.
  induction l as [|c l IH]; simpl; intros Hs; [exact I|].
  destruct Hs as (Hfa & Hs). split; [|auto].
  unfold mark_free. rewrite Forall_forall in *. intros d Hd.
  apply in_map_iff in Hd. destruct Hd as (d0 & <- & Hd0).
  pose proof (Hfa d0 Hd0).
  destruct (b_addr d0 =? a), (b_addr c =? a); simpl; assumption.
Qed.

Lemma chain_mark_free m blk : forall l p,
  chain m p l ->
  (forall b, In b l ->
     b_addr b = blk \/ HEADER_SIZE <= Z.abs (b_addr b - blk)) ->
  chain (upd m (blk + OFF_FREE) 1) p (mark_free blk l).
Proof.
  induction l as [|c l IH]; simpl; intros p Hc Hd; [exact Hc|].
  destruct Hc as (Hp & Hpc & Hs & Hf & Hn). subst p.
  assert (Hcd := Hd c (or_introl eq_refl)).
  assert (Hrest : chain (upd m (blk + OFF_FREE) 1)
                    (upd m (blk + OFF_FREE) 1 (b_addr c + OFF_NEXT))
                    (mark_free blk l)).
  { abi. rewrite upd_other by lia. apply IH; auto. }
  destruct (Z.eqb_spec (b_addr c) blk) as [E|E]; cbn [b_addr b_size b_free].
  - abi. rewrite E in *. upd_norm. repeat split; auto.
  - abi. upd_norm. repeat split; auto.
Qed.

Lemma mark_free_tiles blk : forall l a e,
  tiles a l e -> tiles a (mark_free blk l) e.
Proof.
  induction l as [|c l IH]; simpl; intros a e Ht; [exact Ht|].
  destruct Ht as (Ha & Hs & Ht).
  destruct (b_addr c =? blk); simpl; auto.
Qed.

Lemma mark_free_length blk l : length (mark_free blk l) = length l.
Proof. apply length_map. Qed.

Lemma coalesce_from_no_adjacent_free : forall rest c,
  no_adjacent_free (coalesce_from c rest).
Proof.
  induction rest as [|n rest IH]; intros c; [simpl; auto|].
  cbn [coalesce_from]. destruct (b_free c && b_free n) eqn:Hb; [apply IH|].
  specialize (IH n).
  destruct (coalesce_from_head rest n) as (n' & tl & E & _ & Ef).
  rewrite E in *. split; [|exact IH].
  rewrite Ef. intros (Hc & Hn). rewrite Hc, Hn in Hb. discriminate.
Qed.

Lemma coalesce_from_tiles : forall rest c a e,
  tiles a (c :: rest) e -> 0 <= a -> e - a <= HEAP_SIZE ->
  tiles a (coalesce_from c rest) e.
Proof.
  induction rest as [|n rest IH]; intros c a e Ht Ha He; [exact Ht|].
  cbn [coalesce_from].
  assert (HH : 0 <= HEADER_SIZE) by (abi; lia).
  destruct Ht as (Hca & Hcs & Hna & Hns & Ht).
  destruct (tiles_bounds _ _ _ HH Ht) as (Hle & _).
  destruct (b_free c && b_free n).
  - apply IH; [|assumption..]. cbn [tiles merge b_addr b_size].
    rewrite (wrap_small (HEADER_SIZE + b_size n)) by (abi; lia).
    rewrite wrap_small by (abi; lia).
    repeat split; [assumption | lia |].
    replace (a + HEADER_SIZE + (b_size c + (HEADER_SIZE + b_size n)))
      with (a + HEADER_SIZE + b_size c + HEADER_SIZE + b_size n) by lia.
    exact Ht.
  - cbn [tiles]. repeat split; auto.
    apply IH; [cbn [tiles]; auto | lia | lia].
Qed.


(** Allocated blocks are carried through the pass unchanged. *)
Lemma coalesce_from_keeps_allocated : forall rest c d,
  In d (c :: rest) -> b_free d = false -> In d (coalesce_from c rest).
Proof.
  induction rest as [|n rest IH]; intros c d Hd Hf; [exact Hd|].
  cbn [coalesce_from]. destruct (b_free c && b_free n) eqn:Hb.
  - apply andb_prop in Hb. destruct Hb as (Hcf & Hnf).
    apply IH; [|exact Hf].
    destruct Hd as [<-|[<-|Hd]]; try congruence. now right.
  - destruct Hd as [<-|Hd]; [now left|]. right. apply IH; auto.
Qed.

Lemma free_refines st l fuel ptr :
  chain (heap st) (free_list st) l -> sep l -> 0 < HEADER_SIZE ->
  In (ptr - HEADER_SIZE) (map b_addr l) -> ptr <> 0 ->
  (length l < fuel)%nat ->
  exists m',
    free fuel st ptr = Done {| heap := m'; free_list := free_list st |} /\
    chain m' (free_list st) (coalesce (mark_free (ptr - HEADER_SIZE) l)) /\
    (forall x,
       ~ free_writes (ptr - HEADER_SIZE) (mark_free (ptr - HEADER_SIZE) l) x ->
       m' x = heap st x).
Proof.
  intros Hc Hsep HH Hin Hptr Hf.
  set (blk := ptr - HEADER_SIZE) in *.
  apply in_map_iff in Hin. destruct Hin as (b0 & Hb0 & Hin).
  assert (Hblk : blk <> 0).
  { rewrite <- Hb0. eapply chain_addr_nonnull; eauto. }
  assert (Hd : forall b, In b l ->
             b_addr b = blk \/ HEADER_SIZE <= Z.abs (b_addr b - blk)).
  { intros b Hb. rewrite <- Hb0. apply (sep_pairs l); auto. }
  pose proof (chain_mark_free _ blk _ _ Hc Hd) as Hc1.
  pose proof (sep_mark_free blk _ Hsep) as Hsep1.
  unfold free. apply Z.eqb_neq in Hptr. rewrite Hptr. cbv zeta.
  fold blk. rewrite store_ok by assumption. cbn [bind].
  destruct (mark_free blk l) as [|c rest] eqn:Hml.
  { destruct l; [contradiction | discriminate]. }
  assert (Hlen : (length (c :: rest) < fuel)%nat).
  { rewrite <- Hml, mark_free_length. exact Hf. }
  pose proof Hc1 as (_ & Hpc & _). rewrite Hpc in *.
  destruct (free_loop_refines rest c _ fuel Hc1 Hsep1 Hlen)
    as (m' & Hrun & Hch & Hfr).
  exists m'. rewrite Hrun. cbn [bind]. split; [reflexivity|].
  split; [exact Hch|].
  intros x Hx. rewrite Hfr.
  - apply upd_other. intros ->. apply Hx. now left.
  - intros b Hb. split; intros ->; apply Hx; right; exists b; auto.
Qed.

(** ** More fuel never changes a result *)

Lemma malloc_loop_mono rsz : forall fuel fuel' m cur r,
  malloc_loop fuel m cur rsz = Done r -> (fuel <= fuel')%nat ->
  malloc_loop fuel' m cur rsz = Done r.
Proof.
  induction fuel as [|fuel IH]; intros fuel' m cur r Hrun Hle;
    [discriminate|].
  destruct fuel' as [|fuel']; [lia|]. apply le_S_n in Hle.
  destruct (Z.eq_dec cur 0) as [->|Hc]; [exact Hrun|].
  rewrite malloc_loop_step in * by assumption.
  destruct (negb (m (cur + OFF_FREE) =? 0) && (rsz <=? m (cur + OFF_SIZE)));
    [exact Hrun | eauto].
Qed.

Lemma free_loop_mono : forall fuel fuel' m cur r,
  free_loop fuel m cur = Done r -> (fuel <= fuel')%nat ->
  free_loop fuel' m cur = Done r.
Proof.
  induction fuel as [|fuel IH]; intros fuel' m cur r Hrun Hle;
    [discriminate|].
  destruct fuel' as [|fuel']; [lia|]. apply le_S_n in Hle.
  destruct (Z.eq_dec cur 0) as [->|Hc]; [exact Hrun|].
  rewrite free_loop_step in * by assumption.
  destruct (negb (m (cur + OFF_FREE) =? 0) &&
            negb (m (cur + OFF_NEXT) =? 0) &&
            negb (m (m (cur + OFF_NEXT) + OFF_FREE) =? 0)); eauto.
Qed.


(** ** The heap invariant *)

Lemma header_size_pos : 0 < HEADER_SIZE.
Proof. abi. lia. Qed.

Lemma align_nonneg n : 0 <= align n.
Proof.
  unfold align. apply Z.land_nonneg. left. unfold wrap.
  apply Z.mod_pos_bound. abi. unfold HEAP_SIZE in Hw. lia.
Qed.

Lemma tiles_addr_inj : forall l a e b d,
  tiles a l e -> In b l -> In d l -> b_addr b = b_addr d -> b = d.
Proof.
  pose proof header_size_pos as HH.
  induction l as [|c l IH]; simpl; intros a e b d Ht Hb Hd E;
    [contradiction|].
  destruct Ht as (Hca & Hcs & Ht).
  destruct (tiles_bounds _ _ _ (Z.lt_le_incl _ _ HH) Ht) as (_ & Hall).
  destruct Hb as [<-|Hb], Hd as [<-|Hd].
  - reflexivity.
  - destruct (Hall d Hd). lia.
  - destruct (Hall b Hb). lia.
  - eauto.
Qed.

Lemma tiles_extents : forall l a e b d,
  tiles a l e -> In b l -> In d l ->
  b = d \/
  b_addr b + HEADER_SIZE + b_size b <= b_addr d \/
  b_addr d + HEADER_SIZE + b_size d <= b_addr b.
Proof.
  pose proof header_size_pos as HH.
  induction l as [|c l IH]; simpl; intros a e b d Ht Hb Hd;
    [contradiction|].
  destruct Ht as (Hca & Hcs & Ht).
  destruct (tiles_bounds _ _ _ (Z.lt_le_incl _ _ HH) Ht) as (_ & Hall).
  destruct Hb as [<-|Hb], Hd as [<-|Hd].
  - now left.
  - destruct (Hall d Hd). right. left. lia.
  - destruct (Hall b Hb). right. right. lia.
  - eauto.
Qed.

Lemma tiles_size_nonneg : forall l a e b,
  tiles a l e -> In b l -> 0 <= b_size b.
Proof.
  induction l as [|c l IH]; simpl; intros a e b Ht Hb; [contradiction|].
  destruct Ht as (_ & Hcs & Ht). destruct Hb as [<-|Hb]; eauto.
Qed.

Lemma init_heap_inv st :
  heap_inv (init_heap st)
    [ {| b_addr := heap_area; b_size := HEAP_SIZE - HEADER_SIZE;
         b_free := true |} ].
Proof.
  unfold heap_inv, init_heap. cbn [heap free_list chain tiles b_addr b_size b_free].
  rewrite wrap_small by (abi; lia). abi. upd_norm.
  repeat split; try reflexivity; lia.
Qed.

Lemma heap_inv_sep st l : heap_inv st l -> sep l.
Proof.
  intros (_ & Ht). eapply tiles_sep; [apply header_size_pos | exact Ht].
Qed.

(** [malloc] on a well-formed heap, given fuel for the whole chain. *)
Lemma malloc_run st l fuel n :
  heap_inv st l -> (length l < fuel)%nat ->
  match find (fits (align n)) l with
  | None => malloc fuel st n = Done (0, st)
  | Some c =>
      exists m',
        malloc fuel st n =
          Done (b_addr c + HEADER_SIZE,
                {| heap := m'; free_list := free_list st |}) /\
        heap_inv {| heap := m'; free_list := free_list st |}
          (alloc_chain (align n) l) /\
        (forall x, ~ malloc_writes (align n) c x -> m' x = heap st x)
  end.
Proof.
  intros (Hc & Ht) Hf. unfold malloc.
  assert (Hbase : 0 < heap_area) by (abi; lia).
  assert (He : heap_area + HEAP_SIZE - heap_area <= HEAP_SIZE) by lia.
  pose proof (malloc_loop_refines (align n) (align_nonneg n) l _ _ _ _ fuel
                Hc Ht Hbase He Hf) as Hr.
  destruct (find (fits (align n)) l) as [c|].
  - destruct Hr as (m' & Hrun & Hch & Hfr & _).
    exists m'. rewrite Hrun. cbn [bind fst snd]. split; [reflexivity|].
    split; [|exact Hfr]. split; [exact Hch|].
    apply alloc_chain_tiles; [apply align_nonneg | exact Ht | lia].
  - rewrite Hr. cbn [bind fst snd]. destruct st; reflexivity.
Qed.


(** Any run of [malloc] that returns agrees with [malloc_run]. *)
Lemma malloc_done st fuel fuel' n r :
  malloc fuel st n = Done r -> (fuel <= fuel')%nat ->
  malloc fuel' st n = Done r.
Proof.
  unfold malloc. intros Hrun Hle.
  destruct (malloc_loop fuel (heap st) (free_list st) (align n)) as [q| |] eqn:E;
    try discriminate.
  erewrite malloc_loop_mono; [exact Hrun | exact E | exact Hle].
Qed.

Lemma free_run st l fuel ptr :
  heap_inv st l -> In (ptr - HEADER_SIZE) (map b_addr l) -> ptr <> 0 ->
  (length l < fuel)%nat ->
  exists m',
    free fuel st ptr = Done {| heap := m'; free_list := free_list st |} /\
    heap_inv {| heap := m'; free_list := free_list st |}
      (coalesce (mark_free (ptr - HEADER_SIZE) l)) /\
    (forall x,
       ~ free_writes (ptr - HEADER_SIZE) (mark_free (ptr - HEADER_SIZE) l) x ->
       m' x = heap st x).
Proof.
  intros Hinv Hin Hptr Hf. pose proof Hinv as (Hc & Ht).
  destruct (free_refines st l fuel ptr Hc (heap_inv_sep _ _ Hinv)
              header_size_pos Hin Hptr Hf) as (m' & Hrun & Hch & Hfr).
  exists m'. split; [exact Hrun|]. split; [|exact Hfr].
  split; [exact Hch|]. cbn [heap free_list].
  pose proof (mark_free_tiles (ptr - HEADER_SIZE) _ _ _ Ht) as Ht1.
  destruct (mark_free (ptr - HEADER_SIZE) l) as [|c rest]; [exact Ht1|].
  apply coalesce_from_tiles; [exact Ht1 | abi; lia | lia].
Qed.

Lemma free_done st fuel fuel' ptr st' :
  free fuel st ptr = Done st' -> (fuel <= fuel')%nat ->
  free fuel' st ptr = Done st'.
Proof.
  unfold free. intros Hrun Hle. destruct (ptr =? 0); [exact Hrun|].
  cbv zeta in *.
  destruct (store (heap st) (ptr - HEADER_SIZE) OFF_FREE 1) as [m| |];
    try discriminate.
  cbn [bind] in *.
  destruct (free_loop fuel m (free_list st)) as [m'| |] eqn:E;
    try discriminate.
  erewrite free_loop_mono; [exact Hrun | exact E | exact Hle].
Qed.

Lemma write_payload_inv st l b x v :
  heap_inv st l -> In b l -> payload b x ->
  heap_inv {| heap := upd (heap st) x v; free_list := free_list st |} l.
Proof.
  intros (Hc & Ht) Hb Hx. split; [|exact Ht]. cbn [heap free_list].
  eapply chain_frame; [exact Hc|]. intros d Hd.
  pose proof (tiles_size_nonneg _ _ _ _ Ht Hd) as Hds.
  unfold payload in Hx.
  destruct (tiles_extents _ _ _ b d Ht Hb Hd) as [<-|[H1|H1]];
    abi; upd_norm; auto.
Qed.

Lemma reachable_inv st : reachable st -> exists l, heap_inv st l.
Proof.
  induction 1 as [st | st fuel n p st' Hr (l & Hinv) Hrun
                 | st fuel ptr st' l0 Hr (l & Hinv) Hc0 Hptr Hrun
                 | st l0 b x v Hr (l & Hinv) Hc0 Hb Hbf Hx].
  - eexists. apply init_heap_inv.
  - apply (malloc_done _ _ (Nat.max fuel (S (length l)))) in Hrun; [|lia].
    pose proof (malloc_run st l (Nat.max fuel (S (length l))) n Hinv
                  ltac:(lia)) as Hm.
    destruct (find (fits (align n)) l) as [c|].
    + destruct Hm as (m' & Hrun' & Hinv' & _).
      rewrite Hrun in Hrun'. injection Hrun' as _ ->. eauto.
    + rewrite Hrun in Hm. injection Hm as _ ->. eauto.
  - destruct (Z.eq_dec ptr 0) as [->|Hnz].
    + unfold free in Hrun. simpl in Hrun. injection Hrun as <-. eauto.
    + destruct Hptr as [?|Hin]; [contradiction|].
      pose proof Hinv as (Hc & _).
      rewrite (chain_det _ _ _ _ Hc0 Hc) in Hin.
      apply (free_done _ _ (Nat.max fuel (S (length l)))) in Hrun; [|lia].
      destruct (free_run st l (Nat.max fuel (S (length l))) ptr Hinv Hin Hnz
                  ltac:(lia)) as (m' & Hrun' & Hinv' & _).
      rewrite Hrun in Hrun'. injection Hrun' as ->. eauto.
  - pose proof Hinv as (Hc & _).
    rewrite (chain_det _ _ _ _ Hc0 Hc) in Hb.
    exists l. eapply write_payload_inv; eauto.
Qed.


(** ** Alignment *)

Lemma wbits_pos : 0 < wbits.
Proof.
  abi. destruct (Z_lt_le_dec 0 wbits) as [Hp|Hn]; [exact Hp|].
  exfalso. unfold HEAP_SIZE in Hw.
  destruct (Z.eq_dec wbits 0) as [E|E].
  - rewrite E in Hw. simpl in Hw. lia.
  - rewrite Z.pow_neg_r in Hw by lia. lia.
Qed.

(** [(size + 7) & ~7] clears the three low bits of [size + 7]. *)
Lemma align_div n : align n = 8 * (wrap (n + 7) / 8).
Proof.
  pose proof wbits_pos as Hwp.
  unfold align. set (x := wrap (n + 7)).
  assert (Hx : wrap x = x).
  { unfold x, wrap. apply Z.mod_mod. apply Z.pow_nonzero; lia. }
  unfold wrap at 1. rewrite <- Z.land_ones by lia.
  rewrite (Z.land_comm (Z.lnot 7)), Z.land_assoc.
  rewrite Z.land_ones by lia. fold (wrap x). rewrite Hx.
  rewrite <- Z.ldiff_land. change 7 with (Z.ones 3).
  rewrite Z.ldiff_ones_r by lia.
  rewrite Z.shiftl_mul_pow2, Z.shiftr_div_pow2 by lia.
  change (2 ^ 3) with 8. lia.
Qed.

(** Without wrap-around the aligned size is the request rounded up to a
    multiple of 8. *)
Lemma align_round_up n :
  0 <= n -> n + 7 < 2 ^ wbits ->
  align n = 8 * ((n + 7) / 8) /\ n <= align n < n + 8.
Proof.
  intros Hn Hlt. rewrite align_div. unfold wrap.
  rewrite Z.mod_small by lia. split; [reflexivity|].
  pose proof (Z.div_mod (n + 7) 8 ltac:(lia)).
  pose proof (Z.mod_pos_bound (n + 7) 8 ltac:(lia)). lia.
Qed.


(** ** First fit *)

Lemma malloc_loop_none rsz : forall l m cur fuel,
  chain m cur l -> (forall b, In b l -> fits rsz b = false) ->
  (length l < fuel)%nat ->
  malloc_loop fuel m cur rsz = Done (0, m).
Proof.
  induction l as [|b l IH]; intros m cur fuel Hc Hno Hf.
  - simpl in Hc. subst cur. destruct fuel; [simpl in Hf; lia | reflexivity].
  - destruct fuel as [|fuel]; [simpl in Hf; lia|].
    simpl in Hf. apply PeanoNat.lt_S_n in Hf.
    destruct Hc as (Hp & Hpb & Hs & Hfl & Hn).
    rewrite malloc_loop_step by assumption.
    pose proof (Hno b (or_introl eq_refl)) as Hb. unfold fits in Hb.
    rewrite Hfl, Hs, Hb. apply IH; auto. intros d Hd. apply Hno. now right.
Qed.

(** C1. On a well-formed heap [malloc] returns the payload pointer of the
    first block, in chain order, that is free and at least as large as the
    aligned request; no other block of the chain has that payload
    pointer.  The aligned request is the request rounded up to a multiple
    of 8, as long as adding 7 does not wrap. *)
Theorem malloc_first_fit st l1 c l2 fuel n :
  heap_inv st (l1 ++ c :: l2) ->
  (forall b, In b l1 -> fits (align n) b = false) ->
  fits (align n) c = true ->
  (length (l1 ++ c :: l2) < fuel)%nat ->
  (exists st', malloc fuel st n = Done (b_addr c + HEADER_SIZE, st')) /\
  (forall d, In d (l1 ++ c :: l2) ->
     b_addr d + HEADER_SIZE = b_addr c + HEADER_SIZE -> d = c) /\
  (0 <= n -> n + 7 < 2 ^ wbits -> align n = 8 * ((n + 7) / 8)).
Proof.
  intros Hinv Hno Hc Hf. split; [|split].
  - pose proof (malloc_run st _ fuel n Hinv Hf) as Hm.
    rewrite (find_first _ _ _ _ Hno Hc) in Hm.
    destruct Hm as (m' & Hrun & _). eauto.
  - intros d Hd E. destruct Hinv as (_ & Ht).
    eapply tiles_addr_inj; [exact Ht | exact Hd | | lia].
    apply in_or_app. right. now left.
  - intros Hn Hnw. apply align_round_up; assumption.
Qed.

(** C7. If no block of the chain is free and large enough, [malloc]
    returns [NULL] and the state, memory included, is the one it was
    called in. *)
Theorem malloc_failure_unchanged st l fuel n :
  chain (heap st) (free_list st) l ->
  (forall b, In b l -> fits (align n) b = false) ->
  (length l < fuel)%nat ->
  malloc fuel st n = Done (0, st).
Proof.
  intros Hc Hno Hf. unfold malloc.
  rewrite (malloc_loop_none _ _ _ _ _ Hc Hno Hf). cbn [bind fst snd].
  destruct st; reflexivity.
Qed.

(** ** Splitting *)

(** C4, amended. [malloc] splits the chosen block exactly when its size is
    at least the aligned request plus a header plus 8.  The new header
    then sits right after the aligned payload, is free, takes the
    remaining size and the old successor, and the chosen block keeps
    exactly the aligned size; otherwise the chosen block is handed out
    whole, in particular when the aligned request equals its size. *)
Theorem malloc_split_rule st l1 c l2 fuel n :
  heap_inv st (l1 ++ c :: l2) ->
  (forall b, In b l1 -> fits (align n) b = false) ->
  fits (align n) c = true ->
  (length (l1 ++ c :: l2) < fuel)%nat ->
  exists st',
    malloc fuel st n = Done (b_addr c + HEADER_SIZE, st') /\
    chain (heap st') (free_list st')
      (l1 ++
       (if align n + HEADER_SIZE + 8 <=? b_size c then
          [ {| b_addr := b_addr c; b_size := align n; b_free := false |};
            {| b_addr := b_addr c + HEADER_SIZE + align n;
               b_size := b_size c - align n - HEADER_SIZE;
               b_free := true |} ]
        else [ {| b_addr := b_addr c; b_size := b_size c;
                  b_free := false |} ]) ++ l2) /\
    (align n = b_size c ->
     chain (heap st') (free_list st') (l1 ++ taken c :: l2)).
Proof.
  intros Hinv Hno Hc Hf.
  pose proof (malloc_run st _ fuel n Hinv Hf) as Hm.
  rewrite (find_first _ _ _ _ Hno Hc) in Hm.
  destruct Hm as (m' & Hrun & (Hch & _) & _).
  rewrite (alloc_chain_first _ _ _ _ Hno Hc) in Hch.
  eexists. split; [exact Hrun|]. cbn [heap free_list] in *.
  destruct Hinv as (_ & Ht). apply tiles_app in Ht.
  destruct Ht as (mid & Ht1 & Hca & Hcs & Ht2).
  assert (HH : 0 <= HEADER_SIZE) by (abi; lia).
  destruct (tiles_bounds _ _ _ HH Ht1) as (Hle1 & _).
  destruct (tiles_bounds _ _ _ HH Ht2) as (Hle2 & _).
  pose proof (align_nonneg n) as Hrsz.
  unfold fits in Hc. apply andb_prop in Hc. destruct Hc as (_ & Hge).
  apply Z.leb_le in Hge.
  unfold carve, splits in Hch.
  rewrite wrap_small in Hch by (abi; lia).
  split.
  - destruct (align n + HEADER_SIZE + 8 <=? b_size c) eqn:Hsp.
    + apply Z.leb_le in Hsp.
      rewrite wrap_small in Hch by (abi; lia). exact Hch.
    + exact Hch.
  - intros E. destruct (align n + HEADER_SIZE + 8 <=? b_size c) eqn:Hsp.
    + apply Z.leb_le in Hsp. abi. lia.
    + exact Hch.
Qed.


(** ** Invariants of reachable states *)

Lemma coalesce_marked_tiles blk l :
  tiles heap_area l (heap_area + HEAP_SIZE) ->
  tiles heap_area (coalesce (mark_free blk l)) (heap_area + HEAP_SIZE).
Proof.
  intros Ht. pose proof (mark_free_tiles blk _ _ _ Ht) as Ht1.
  destruct (mark_free blk l) as [|c rest]; [exact Ht1|].
  apply coalesce_from_tiles; [exact Ht1 | abi; lia | lia].
Qed.

(** C2. In every reachable state the chain's headers and payloads add up
    to the capacity of the arena, and so do the chain with a block split
    off for any request and the chain with any block released and its
    free neighbours merged. *)
Theorem conservation st :
  reachable st ->
  exists l, chain (heap st) (free_list st) l /\ footprint l = HEAP_SIZE /\
            (forall n, footprint (alloc_chain (align n) l) = HEAP_SIZE) /\
            (forall blk, footprint (coalesce (mark_free blk l)) = HEAP_SIZE).
Proof.
  intros Hr. destruct (reachable_inv st Hr) as (l & Hc & Ht).
  exists l. split; [exact Hc|]. split; [|split].
  - rewrite (tiles_footprint _ _ _ Ht). lia.
  - intros n.
    rewrite (tiles_footprint _ heap_area (heap_area + HEAP_SIZE)); [lia|].
    apply alloc_chain_tiles; [apply align_nonneg | exact Ht | lia].
  - intros blk.
    rewrite (tiles_footprint _ heap_area (heap_area + HEAP_SIZE)); [lia|].
    apply coalesce_marked_tiles. exact Ht.
Qed.

(** C6. In every reachable state the chain lists its blocks by strictly
    increasing address, and each block starts where the payload of the one
    before it ends, from the start of the arena to its end; the same holds
    of the chain with a block split off for any request and of the chain
    with any block released and its free neighbours merged. *)
Theorem address_order st :
  reachable st ->
  exists l, chain (heap st) (free_list st) l /\
            increasing (map b_addr l) /\
            tiles heap_area l (heap_area + HEAP_SIZE) /\
            (forall n, increasing (map b_addr (alloc_chain (align n) l))) /\
            (forall blk,
               increasing (map b_addr (coalesce (mark_free blk l)))).
Proof.
  intros Hr. destruct (reachable_inv st Hr) as (l & Hc & Ht).
  pose proof header_size_pos as HH.
  exists l. split; [exact Hc|]. split; [|split; [exact Ht|split]].
  - eapply tiles_increasing; [exact HH | exact Ht].
  - intros n. eapply tiles_increasing; [exact HH|].
    apply alloc_chain_tiles; [apply align_nonneg | exact Ht | lia].
  - intros blk. eapply tiles_increasing; [exact HH|].
    apply coalesce_marked_tiles. exact Ht.
Qed.

(** ** Coalescing *)

(** C3. On a well-formed heap, [free] of the payload pointer of an
    allocated block [b] returns and leaves [free_list] alone; the chain it
    leaves is the old chain with [b] marked free and every run of free
    neighbours merged into its first block, it tiles the arena, and no
    two of its neighbours are both free. *)
Theorem free_no_adjacent_free st l b fuel :
  heap_inv st l -> In b l -> b_free b = false ->
  (length l < fuel)%nat ->
  b_addr b + HEADER_SIZE <> 0 /\
  exists st',
    free fuel st (b_addr b + HEADER_SIZE) = Done st' /\
    free_list st' = free_list st /\
    heap_inv st' (coalesce (mark_free (b_addr b) l)) /\
    no_adjacent_free (coalesce (mark_free (b_addr b) l)).
Proof.
  intros Hinv Hb Hbf Hf.
  pose proof Hinv as (Hc & Ht).
  pose proof header_size_pos as HH.
  destruct (tiles_bounds _ _ _ (Z.lt_le_incl _ _ HH) Ht) as (_ & Hall).
  destruct (Hall b Hb) as (Hlo & _).
  assert (Hptr : b_addr b + HEADER_SIZE <> 0) by (abi; lia).
  split; [exact Hptr|].
  assert (Hin : In (b_addr b + HEADER_SIZE - HEADER_SIZE) (map b_addr l)).
  { replace (b_addr b + HEADER_SIZE - HEADER_SIZE) with (b_addr b) by lia.
    apply in_map. exact Hb. }
  destruct (free_run st l fuel _ Hinv Hin Hptr Hf)
    as (m' & Hrun & Hinv' & _).
  replace (b_addr b + HEADER_SIZE - HEADER_SIZE) with (b_addr b) in Hinv'
    by lia.
  eexists. split; [exact Hrun|]. split; [reflexivity|].
  split; [exact Hinv'|].
  destruct (mark_free _ l) as [|c rest]; [exact I|].
  apply coalesce_from_no_adjacent_free.
Qed.

(** ** Before [init_heap] *)


(** ** Termination *)

Lemma split_block_returns m cur rsz : split_block m cur rsz <> Timeout.
Proof.
  unfold split_block, load, store.
  destruct (cur =? 0); cbn [bind]; [discriminate|].
  destruct (cur + HEADER_SIZE + rsz =? 0); cbn [bind]; discriminate.
Qed.

Lemma malloc_loop_returns rsz : forall l m cur fuel,
  chain m cur l -> (length l < fuel)%nat ->
  malloc_loop fuel m cur rsz <> Timeout.
Proof.
  induction l as [|b l IH]; intros m cur fuel Hc Hf.
  - simpl in Hc. subst cur. destruct fuel; [simpl in Hf; lia|]. discriminate.
  - destruct fuel as [|fuel]; [simpl in Hf; lia|].
    simpl in Hf. apply PeanoNat.lt_S_n in Hf.
    destruct Hc as (Hp & Hpb & Hs & Hfl & Hn).
    rewrite malloc_loop_step by assumption.
    destruct (negb (m (cur + OFF_FREE) =? 0) && (rsz <=? m (cur + OFF_SIZE)));
      [|apply IH; auto].
    rewrite store_ok_bind.
    destruct (wrap (rsz + HEADER_SIZE + 8) <=? m (cur + OFF_SIZE)).
    + pose proof (split_block_returns m cur rsz).
      destruct (split_block m cur rsz); cbn [bind];
        [discriminate | discriminate | contradiction].
    + discriminate.
    + exact Hp.
Qed.

(** C9, amended. On a finite chain both loops stop within [length l + 1]
    iterations: the search by moving along the chain, the coalescing pass
    because every iteration unlinks a node or moves along.  The pass
    writes headers, so for [free] the headers of the chain must not
    overlap and the pointer must be [NULL] or the payload pointer of a
    block of the chain.  When the chain tiles the arena both calls
    return normally. *)
Theorem malloc_free_terminate st l fuel n ptr :
  chain (heap st) (free_list st) l ->
  (length l < fuel)%nat ->
  malloc fuel st n <> Timeout /\
  (sep l -> ptr = 0 \/ In (ptr - HEADER_SIZE) (map b_addr l) ->
   free fuel st ptr <> Timeout) /\
  (tiles heap_area l (heap_area + HEAP_SIZE) ->
   (exists r, malloc fuel st n = Done r) /\
   (ptr = 0 \/ In (ptr - HEADER_SIZE) (map b_addr l) ->
    exists st', free fuel st ptr = Done st')).
Proof.
  intros Hc Hf. split; [|split].
  - unfold malloc.
    pose proof (malloc_loop_returns (align n) _ _ _ _ Hc Hf) as Hm.
    destruct (malloc_loop fuel (heap st) (free_list st) (align n));
      cbn [bind]; [discriminate | discriminate | contradiction].
  - intros Hsep Hptr. destruct (Z.eq_dec ptr 0) as [->|Hnz].
    + unfold free. simpl. discriminate.
    + destruct Hptr as [?|Hin]; [contradiction|].
      destruct (free_refines st l fuel ptr Hc Hsep header_size_pos Hin Hnz Hf)
        as (m' & Hrun & _).
      rewrite Hrun. discriminate.
  - intros Ht. assert (Hinv : heap_inv st l) by (split; assumption). split.
    + pose proof (malloc_run st l fuel n Hinv Hf) as Hm.
      destruct (find (fits (align n)) l).
      * destruct Hm as (m' & Hrun & _). eauto.
      * eauto.
    + intros Hptr. destruct (Z.eq_dec ptr 0) as [->|Hnz].
      * exists st. reflexivity.
      * destruct Hptr as [?|Hin]; [contradiction|].
        destruct (free_run st l fuel ptr Hinv Hin Hnz Hf) as (m' & Hrun & _).
        eauto.
Qed.

(** ** Frame *)

Lemma malloc_writes_extent rsz c x :
  0 <= rsz -> fits rsz c = true -> HEADER_SIZE + b_size c <= HEAP_SIZE ->
  malloc_writes rsz c x -> extent c x.
Proof.
  intros Hrsz Hfit Hsz Hw. unfold fits in Hfit.
  apply andb_prop in Hfit. destruct Hfit as (_ & Hge). apply Z.leb_le in Hge.
  unfold malloc_writes, splits, extent in *.
  destruct Hw as [Hh|(Hsp & Hn)]; [abi; lia|].
  rewrite wrap_small in Hsp by (abi; lia). apply Z.leb_le in Hsp. abi. lia.
Qed.

(** C10. On a well-formed heap, a call of [malloc] leaves every cell of
    every allocated block, header and payload, as it was, and changes
    cells only in the header of the block it chooses and, when it splits,
    in the new header, both inside the chosen block; a call of [free] on
    the payload pointer of block [b] leaves every cell of every other
    allocated block as it was, and changes only the flag of [b] and the
    [size] and [next] members of blocks that are free during the pass. *)
Theorem frame_live_blocks st l :
  heap_inv st l ->
  (forall fuel n p st',
     malloc fuel st n = Done (p, st') ->
     (forall d, In d l -> b_free d = false ->
        unchanged_on (extent d) (heap st) (heap st')) /\
     (p = 0 -> st' = st) /\
     (forall c, In c l -> p = b_addr c + HEADER_SIZE ->
        b_free c = true /\
        unchanged_on (fun x => ~ malloc_writes (align n) c x)
          (heap st) (heap st') /\
        (forall x, malloc_writes (align n) c x -> extent c x))) /\
  (forall fuel b st',
     In b l -> free fuel st (b_addr b + HEADER_SIZE) = Done st' ->
     (forall d, In d l -> b_free d = false -> d <> b ->
        unchanged_on (extent d) (heap st) (heap st')) /\
     unchanged_on
       (fun x => ~ free_writes (b_addr b) (mark_free (b_addr b) l) x)
       (heap st) (heap st')).
Proof.
  intros Hinv. pose proof Hinv as (Hc & Ht).
  pose proof header_size_pos as HH.
  destruct (tiles_bounds _ _ _ (Z.lt_le_incl _ _ HH) Ht) as (_ & Hall).
  assert (Hpos : 0 < heap_area) by (abi; lia).
  split.
  - intros fuel n p st' Hrun.
    apply (malloc_done _ _ (Nat.max fuel (S (length l)))) in Hrun; [|lia].
    pose proof (malloc_run st l (Nat.max fuel (S (length l))) n Hinv
                  ltac:(lia)) as Hm.
    destruct (find (fits (align n)) l) as [c0|] eqn:Hfind.
    + destruct Hm as (m' & Hrun' & _ & Hfr).
      rewrite Hrun in Hrun'. injection Hrun' as -> ->. cbn [heap].
      apply find_some in Hfind. destruct Hfind as (Hc0 & Hfit).
      destruct (Hall c0 Hc0) as (Hlo0 & Hhi0).
      assert (Hext : forall x, malloc_writes (align n) c0 x -> extent c0 x).
      { intros x. apply malloc_writes_extent;
          [apply align_nonneg | exact Hfit | lia]. }
      assert (Hfree : b_free c0 = true).
      { unfold fits in Hfit. apply andb_prop in Hfit. tauto. }
      split; [|split].
      * intros d Hd Hdf x Hx. apply Hfr. intros Hw. apply Hext in Hw.
        unfold extent in *.
        destruct (tiles_extents _ _ _ d c0 Ht Hd Hc0) as [->|[H1|H1]];
          [congruence | lia | lia].
      * intros E. lia.
      * intros c Hcin E.
        assert (c = c0) as ->.
        { eapply tiles_addr_inj; [exact Ht | exact Hcin | exact Hc0 | lia]. }
        split; [exact Hfree|]. split; [exact Hfr | exact Hext].
    + rewrite Hrun in Hm. injection Hm as -> ->.
      split; [|split].
      * intros d _ _ x _. reflexivity.
      * reflexivity.
      * intros c Hcin E. destruct (Hall c Hcin). lia.
  - intros fuel b st' Hb Hrun.
    destruct (Hall b Hb) as (Hlob & _).
    assert (Hptr : b_addr b + HEADER_SIZE <> 0) by lia.
    assert (Hin : In (b_addr b + HEADER_SIZE - HEADER_SIZE) (map b_addr l)).
    { replace (b_addr b + HEADER_SIZE - HEADER_SIZE) with (b_addr b) by lia.
      apply in_map. exact Hb. }
    apply (free_done _ _ (Nat.max fuel (S (length l)))) in Hrun; [|lia].
    destruct (free_run st l (Nat.max fuel (S (length l))) _ Hinv Hin Hptr
                ltac:(lia)) as (m' & Hrun' & _ & Hfr).
    rewrite Hrun in Hrun'. injection Hrun' as ->. cbn [heap].
    replace (b_addr b + HEADER_SIZE - HEADER_SIZE) with (b_addr b) in Hfr
      by lia.
    split; [|exact Hfr].
    intros d Hd Hdf Hne x Hx. apply Hfr. unfold extent in Hx.
    pose proof (tiles_size_nonneg _ _ _ _ Ht Hb) as Hbs.
    intros [Hflag | (b' & Hb' & Hcell)].
    2: apply absorbing_incl in Hb'; destruct Hb' as (Hb' & Hbf').
    + destruct (tiles_extents _ _ _ d b Ht Hd Hb) as [->|[H1|H1]];
        [congruence | abi; lia | abi; lia].
    + unfold mark_free in Hb'. apply in_map_iff in Hb'.
      destruct Hb' as (b0 & Eb' & Hb0).
      assert (Ea : b_addr b' = b_addr b0).
      { subst b'. destruct (b_addr b0 =? b_addr b); reflexivity. }
      pose proof (tiles_size_nonneg _ _ _ _ Ht Hb0) as Hb0s.
      destruct (tiles_extents _ _ _ d b0 Ht Hd Hb0) as [<-|[H1|H1]];
        [| abi; lia | abi; lia].
      destruct (Z.eqb_spec (b_addr d) (b_addr b)) as [E|E].
      * apply Hne. eapply tiles_addr_inj; eauto.
      * subst b'. congruence.
Qed.


(** ** Size of the returned block *)

Lemma chain_in_size m : forall l p b,
  chain m p l -> In b l -> m (b_addr b + OFF_SIZE) = b_size b.
Proof.
  induction l as [|c l IH]; simpl; intros p b Hc Hb; [contradiction|].
  destruct Hc as (_ & Hpc & Hs & _ & Hn). subst p.
  destruct Hb as [<-|Hb]; [exact Hs | eauto].
Qed.

(** As long as [size + 7] does not wrap, the block [malloc] returns
    records at least [size] bytes. *)
Lemma malloc_grants_request st l1 c l2 fuel n :
  heap_inv st (l1 ++ c :: l2) ->
  (forall b, In b l1 -> fits (align n) b = false) ->
  fits (align n) c = true ->
  (length (l1 ++ c :: l2) < fuel)%nat ->
  0 <= n -> n + 7 < 2 ^ wbits ->
  exists st',
    malloc fuel st n = Done (b_addr c + HEADER_SIZE, st') /\
    n <= heap st' (b_addr c + OFF_SIZE).
Proof.
  intros Hinv Hno Hc Hf Hn Hnw.
  pose proof (malloc_run st _ fuel n Hinv Hf) as Hm.
  rewrite (find_first _ _ _ _ Hno Hc) in Hm.
  destruct Hm as (m' & Hrun & (Hch & _) & _).
  rewrite (alloc_chain_first _ _ _ _ Hno Hc) in Hch.
  eexists. split; [exact Hrun|]. cbn [heap free_list] in *.
  destruct (align_round_up n Hn Hnw) as (_ & Hge & _).
  unfold fits in Hc. apply andb_prop in Hc. destruct Hc as (_ & Hsz).
  apply Z.leb_le in Hsz.
  unfold carve in Hch. destruct (splits (align n) c).
  - rewrite (chain_in_size _ _ _
               {| b_addr := b_addr c; b_size := align n; b_free := false |}
               Hch); [exact Hge|].
    apply in_or_app. right. now left.
  - assert (E : m' (b_addr (taken c) + OFF_SIZE) = b_size (taken c)); [|cbn in E; rewrite E; lia].
    apply (chain_in_size _ _ _ (taken c) Hch).
    apply in_or_app. right. now left.
Qed.


(** ** Further properties of [init_heap] and [malloc] *)

(** X1. From any state, [init_heap] leaves one free block that spans the
    arena, points [free_list] at it, and changes no cell outside the
    first header of the arena. *)
Theorem init_heap_resets st :
  heap_inv (init_heap st) [whole_arena] /\
  free_list (init_heap st) = heap_area /\
  unchanged_on (fun x => ~ (heap_area <= x < heap_area + HEADER_SIZE))
    (heap st) (heap (init_heap st)).
Proof.
  split; [apply init_heap_inv|]. split; [reflexivity|].
  intros x Hx. unfold init_heap. cbn [heap]. abi. upd_norm. reflexivity.
Qed.

Lemma malloc_cases st l fuel n p st' :
  heap_inv st l -> malloc fuel st n = Done (p, st') ->
  (find (fits (align n)) l = None /\ p = 0 /\ st' = st) \/
  (exists c, find (fits (align n)) l = Some c /\
             p = b_addr c + HEADER_SIZE /\
             heap_inv st' (alloc_chain (align n) l) /\
             free_list st' = free_list st /\
             unchanged_on (fun x => ~ malloc_writes (align n) c x)
               (heap st) (heap st')).
Proof.
  intros Hinv Hrun.
  apply (malloc_done _ _ (Nat.max fuel (S (length l)))) in Hrun; [|lia].
  pose proof (malloc_run st l (Nat.max fuel (S (length l))) n Hinv
                ltac:(lia)) as Hm.
  destruct (find (fits (align n)) l) as [c|].
  - right. destruct Hm as (m' & Hrun' & Hinv' & Hfr).
    rewrite Hrun in Hrun'. injection Hrun' as -> ->.
    exists c. repeat split; auto; apply Hinv'.
  - left. rewrite Hrun in Hm. injection Hm as -> ->. auto.
Qed.

Lemma block_in_arena l b :
  tiles heap_area l (heap_area + HEAP_SIZE) -> In b l ->
  0 < heap_area <= b_addr b /\ 0 <= b_size b /\
  b_addr b + HEADER_SIZE + b_size b <= heap_area + HEAP_SIZE.
Proof.
  intros Ht Hb. pose proof header_size_pos as HH.
  destruct (tiles_bounds _ _ _ (Z.lt_le_incl _ _ HH) Ht) as (_ & Hall).
  destruct (Hall b Hb). pose proof (tiles_size_nonneg _ _ _ _ Ht Hb).
  abi. lia.
Qed.

(** X2. On a well-formed heap a call of [malloc] that returns gives
    [NULL] exactly when no block of the chain is free and at least as
    large as the aligned request. *)
Theorem malloc_null_iff st l fuel n p st' :
  heap_inv st l -> malloc fuel st n = Done (p, st') ->
  (p = 0 <-> forall b, In b l -> fits (align n) b = false).
Proof.
  intros Hinv Hrun. pose proof Hinv as (_ & Ht).
  destruct (malloc_cases _ _ _ _ _ _ Hinv Hrun)
    as [(Hf & -> & _) | (c & Hf & -> & _)].
  - split; [|reflexivity]. intros _ b Hb. exact (find_none _ _ Hf b Hb).
  - apply find_some in Hf. destruct Hf as (Hc & Hfit).
    destruct (block_in_arena _ _ Ht Hc) as (Hlo & _).
    pose proof header_size_pos. split; [lia|].
    intros Hno. rewrite (Hno c Hc) in Hfit. discriminate.
Qed.

Lemma chain_in_flag m : forall l p b,
  chain m p l -> In b l -> negb (m (b_addr b + OFF_FREE) =? 0) = b_free b.
Proof.
  induction l as [|c l IH]; simpl; intros p b Hc Hb; [contradiction|].
  destruct Hc as (_ & Hpc & _ & Hf & Hn). subst p.
  destruct Hb as [<-|Hb]; [exact Hf | eauto].
Qed.

Lemma alloc_chain_chosen rsz : forall l c,
  find (fits rsz) l = Some c ->
  exists c', In c' (alloc_chain rsz l) /\ b_addr c' = b_addr c /\
             b_free c' = false /\
             (b_size c' = rsz \/ b_size c' = b_size c).
Proof.
  induction l as [|b l IH]; simpl; intros c Hf; [discriminate|].
  destruct (fits rsz b).
  - injection Hf as ->. unfold carve. destruct (splits rsz c).
    + eexists. split; [left; reflexivity|]. simpl. auto.
    + exists (taken c). split; [left; reflexivity|]. simpl. auto.
  - destruct (IH c Hf) as (c' & Hin & H1). exists c'. split; [now right|].
    exact H1.
Qed.

(** X3. On a well-formed heap a non-null result of [malloc] points to a
    payload of at least the aligned request that lies inside the arena
    and shares no address with any block that was allocated before the
    call; the header in front of it is marked allocated. *)
Theorem malloc_payload_exclusive st l fuel n p st' :
  heap_inv st l -> malloc fuel st n = Done (p, st') -> p <> 0 ->
  heap_area + HEADER_SIZE <= p /\
  p + align n <= heap_area + HEAP_SIZE /\
  (forall d x, In d l -> b_free d = false ->
               p <= x < p + align n -> ~ extent d x) /\
  heap st' (p - HEADER_SIZE + OFF_FREE) = 0 /\
  align n <= heap st' (p - HEADER_SIZE + OFF_SIZE).
Proof.
  intros Hinv Hrun Hp. pose proof Hinv as (_ & Ht).
  destruct (malloc_cases _ _ _ _ _ _ Hinv Hrun)
    as [(_ & -> & _) | (c & Hf & -> & (Hch & _) & _ & _)]; [congruence|].
  destruct (alloc_chain_chosen _ _ _ Hf) as (c' & Hc' & Ea & Efr & Esz).
  apply find_some in Hf. destruct Hf as (Hc & Hfit).
  destruct (block_in_arena _ _ Ht Hc) as (Hlo & Hs & Hhi).
  unfold fits in Hfit. apply andb_prop in Hfit. destruct Hfit as (Hcf & Hge).
  apply Z.leb_le in Hge. pose proof header_size_pos as HH.
  split; [lia|]. split; [lia|]. split; [|split].
  - intros d x Hd Hdf Hx Hext. unfold extent in Hext.
    destruct (tiles_extents _ _ _ d c Ht Hd Hc) as [->|[H1|H1]];
      [congruence | lia | lia].
  - replace (b_addr c + HEADER_SIZE - HEADER_SIZE) with (b_addr c') by lia.
    pose proof (chain_in_flag _ _ _ _ Hch Hc') as Hfl. rewrite Efr in Hfl.
    apply negb_false_iff in Hfl. apply Z.eqb_eq in Hfl. exact Hfl.
  - replace (b_addr c + HEADER_SIZE - HEADER_SIZE) with (b_addr c') by lia.
    rewrite (chain_in_size _ _ _ _ Hch Hc'). lia.
Qed.

(** X4. On a well-formed heap a request whose aligned size exceeds
    [HEAP_SIZE - HEADER_SIZE] always fails: [malloc] returns [NULL] and
    leaves the state as it is. *)
Theorem malloc_too_large_fails st l fuel n :
  heap_inv st l -> HEAP_SIZE - HEADER_SIZE < align n ->
  (length l < fuel)%nat ->
  malloc fuel st n = Done (0, st).
Proof.
  intros Hinv Hbig Hf. pose proof Hinv as (_ & Ht).
  pose proof (malloc_run st l fuel n Hinv Hf) as Hm.
  destruct (find (fits (align n)) l) as [c|] eqn:Hfind; [|exact Hm].
  apply find_some in Hfind. destruct Hfind as (Hc & Hfit).
  destruct (block_in_arena _ _ Ht Hc) as (Hlo & Hs & Hhi).
  unfold fits in Hfit. apply andb_prop in Hfit. destruct Hfit as (_ & Hge).
  apply Z.leb_le in Hge. lia.
Qed.

(** X5. A request within 7 of the largest [size_t] value is aligned to 0:
    [malloc] treats it exactly as a request of 0 bytes. *)
Theorem malloc_size_max_wraps fuel st n :
  2 ^ wbits - 7 <= n < 2 ^ wbits ->
  align n = 0 /\ malloc fuel st n = malloc fuel st 0.
Proof.
  intros Hn. pose proof wbits_pos as Hwp.
  assert (H8 : 8 <= 2 ^ wbits).
  { abi. unfold HEAP_SIZE in Hw. lia. }
  assert (E : align n = 0).
  { rewrite align_div. unfold wrap.
    replace ((n + 7) mod 2 ^ wbits) with (n + 7 - 2 ^ wbits).
    - rewrite Z.div_small by lia. reflexivity.
    - apply Z.mod_unique with (q := 1); lia. }
  assert (E0 : align 0 = 0).
  { rewrite align_div. unfold wrap. rewrite Z.mod_small by lia. reflexivity. }
  split; [exact E|]. unfold malloc. rewrite E, E0. reflexivity.
Qed.

(** X6. On a well-formed heap a request of 0 bytes is served from the
    first free block of the chain, whatever its size; if that block has
    room for a header and 8 bytes it is split and the returned block
    records 0 bytes. *)
Theorem malloc_zero st l1 c l2 fuel :
  heap_inv st (l1 ++ c :: l2) ->
  (forall b, In b l1 -> b_free b = false) -> b_free c = true ->
  (length (l1 ++ c :: l2) < fuel)%nat ->
  exists st',
    malloc fuel st 0 = Done (b_addr c + HEADER_SIZE, st') /\
    (HEADER_SIZE + 8 <= b_size c ->
     heap st' (b_addr c + OFF_SIZE) = 0).
Proof.
  intros Hinv Hno Hc Hf. pose proof Hinv as (_ & Ht).
  assert (H8 : 8 <= 2 ^ wbits).
  { abi. unfold HEAP_SIZE in Hw. lia. }
  assert (E0 : align 0 = 0).
  { rewrite align_div. unfold wrap. rewrite Z.mod_small by lia. reflexivity. }
  assert (Hcin : In c (l1 ++ c :: l2)) by (apply in_or_app; right; now left).
  destruct (block_in_arena _ _ Ht Hcin) as (Hlo & Hs & Hhi).
  assert (Hno' : forall b, In b l1 -> fits (align 0) b = false).
  { intros b Hb. unfold fits. now rewrite (Hno b Hb). }
  assert (Hc' : fits (align 0) c = true).
  { unfold fits. rewrite Hc, E0. apply Z.leb_le in Hs. now rewrite Hs. }
  pose proof (malloc_run st _ fuel 0 Hinv Hf) as Hm.
  rewrite (find_first _ _ _ _ Hno' Hc') in Hm.
  destruct Hm as (m' & Hrun & (Hch & _) & _).
  rewrite (alloc_chain_first _ _ _ _ Hno' Hc') in Hch.
  eexists. split; [exact Hrun|]. cbn [heap free_list] in *.
  intros Hroom. unfold carve, splits in Hch. rewrite E0 in Hch.
  rewrite wrap_small in Hch by (abi; lia).
  apply Z.leb_le in Hroom. replace (0 + HEADER_SIZE + 8) with (HEADER_SIZE + 8)
    in Hch by lia.
  rewrite Hroom in Hch.
  apply (chain_in_size _ _ _
           {| b_addr := b_addr c; b_size := 0; b_free := false |} Hch).
  apply in_or_app. right. now left.
Qed.


(** ** Further properties of [free] *)

Lemma naf_cons b l :
  no_adjacent_free (b :: l) <->
  ~ (b_free b = true /\ next_free l = true) /\ no_adjacent_free l.
Proof.
  destruct l as [|c l]; simpl; [|tauto].
  split; [intros _; split; [intros (_ & H); discriminate | exact I] | tauto].
Qed.

Lemma coalesce_from_fixed : forall rest c,
  no_adjacent_free (c :: rest) -> coalesce_from c rest = c :: rest.
Proof.
  induction rest as [|n rest IH]; intros c Hn; [reflexivity|].
  destruct Hn as (Hcn & Hn). cbn [coalesce_from].
  destruct (b_free c) eqn:Hc, (b_free n) eqn:Hnf; simpl;
    try (f_equal; apply IH; exact Hn).
  exfalso. apply Hcn. auto.
Qed.

Lemma absorbing_nil : forall l, no_adjacent_free l -> absorbing l = [].
Proof.
  induction l as [|b l IH]; intros Hn; [reflexivity|].
  apply naf_cons in Hn. destruct Hn as (Hb & Hn).
  cbn [absorbing]. rewrite (IH Hn).
  destruct (b_free b) eqn:E1, (next_free l) eqn:E2; simpl; auto.
  exfalso. apply Hb. auto.
Qed.

Lemma mark_free_id blk : forall l,
  (forall b, In b l -> b_addr b = blk -> b_free b = true) ->
  mark_free blk l = l.
Proof.
  induction l as [|c l IH]; simpl; intros Hf; [reflexivity|].
  f_equal; [|apply IH; auto].
  destruct (Z.eqb_spec (b_addr c) blk) as [E|E]; [|reflexivity].
  pose proof (Hf c (or_introl eq_refl) E). destruct c; simpl in *.
  congruence.
Qed.

Lemma alloc_chain_length rsz : forall l,
  (length (alloc_chain rsz l) <= S (length l))%nat.
Proof.
  induction l as [|b l IH]; simpl; [lia|].
  destruct (fits rsz b); [|simpl; lia].
  unfold carve. destruct (splits rsz b); simpl; lia.
Qed.

(** X7. On a well-formed heap without adjacent free blocks, [free] of
    the payload pointer of a block that is already free leaves the chain
    as it is and writes nothing but that block's flag. *)
Theorem double_free_harmless st l b fuel :
  heap_inv st l -> no_adjacent_free l ->
  In b l -> b_free b = true ->
  (length l < fuel)%nat ->
  exists st',
    free fuel st (b_addr b + HEADER_SIZE) = Done st' /\
    heap_inv st' l /\
    unchanged_on (fun x => x <> b_addr b + OFF_FREE) (heap st) (heap st').
Proof.
  intros Hinv Hnaf Hb Hbf Hf. pose proof Hinv as (_ & Ht).
  destruct (block_in_arena _ _ Ht Hb) as (Hlo & _).
  pose proof header_size_pos as HH.
  assert (Hptr : b_addr b + HEADER_SIZE <> 0) by lia.
  assert (Hin : In (b_addr b + HEADER_SIZE - HEADER_SIZE) (map b_addr l)).
  { replace (b_addr b + HEADER_SIZE - HEADER_SIZE) with (b_addr b) by lia.
    apply in_map. exact Hb. }
  destruct (free_run st l fuel _ Hinv Hin Hptr Hf) as (m' & Hrun & Hinv' & Hfr).
  replace (b_addr b + HEADER_SIZE - HEADER_SIZE) with (b_addr b) in * by lia.
  assert (Hid : mark_free (b_addr b) l = l).
  { apply mark_free_id. intros d Hd E.
    rewrite (tiles_addr_inj _ _ _ d b Ht Hd Hb E). exact Hbf. }
  rewrite Hid in *.
  assert (Hco : coalesce l = l).
  { destruct l as [|c rest]; [reflexivity|].
    apply coalesce_from_fixed. exact Hnaf. }
  rewrite Hco in Hinv'.
  eexists. split; [exact Hrun|]. split; [exact Hinv'|].
  intros x Hx. cbn [heap]. apply Hfr.
  unfold free_writes. rewrite (absorbing_nil _ Hnaf).
  intros [E|(d & [] & _)]. contradiction.
Qed.

Lemma round_trip_chain rsz : 0 <= rsz ->
  forall l' b a e c,
  tiles a (b :: l') e -> e - a <= HEAP_SIZE ->
  no_adjacent_free (b :: l') ->
  find (fits rsz) (b :: l') = Some c ->
  exists x xs,
    mark_free (b_addr c) (alloc_chain rsz (b :: l')) = x :: xs /\
    coalesce_from x xs = b :: l' /\ b_free x = b_free b.
Proof.
  intros Hrsz. pose proof header_size_pos as HH.
  induction l' as [|n l'' IH]; intros b a e c Ht He Hnaf Hfind.
  - (* a single block *)
    cbn [find alloc_chain] in *. destruct (fits rsz b) eqn:Hfit;
      [|discriminate].
    injection Hfind as <-. destruct Ht as (Hba & Hbs & Ht). simpl in Ht.
    unfold fits in Hfit. apply andb_prop in Hfit. destruct Hfit as (Hbf & Hge).
    apply Z.leb_le in Hge. unfold carve, splits.
    destruct (wrap (rsz + HEADER_SIZE + 8) <=? b_size b) eqn:Hsp.
    + rewrite wrap_small in Hsp by (abi; lia). apply Z.leb_le in Hsp.
      cbn [app mark_free map b_addr b_size b_free].
      rewrite Z.eqb_refl.
      assert (E : (b_addr b + HEADER_SIZE + rsz =? b_addr b) = false)
        by (apply Z.eqb_neq; lia).
      rewrite E. eexists. eexists. split; [reflexivity|].
      split; [|cbn; congruence].
      cbn [coalesce_from b_free andb]. unfold merge.
      cbn [b_addr b_size b_free].
      rewrite (wrap_small (b_size b - rsz - HEADER_SIZE)) by (abi; lia).
      rewrite (wrap_small (HEADER_SIZE + _)) by (abi; lia).
      rewrite wrap_small by (abi; lia).
      replace (rsz + (HEADER_SIZE + (b_size b - rsz - HEADER_SIZE)))
        with (b_size b) by lia.
      destruct b; simpl in *; congruence.
    + cbn [app mark_free map taken b_addr b_size b_free].
      rewrite Z.eqb_refl. eexists. eexists. split; [reflexivity|].
      split; [|cbn; congruence].
      cbn [coalesce_from]. destruct b; simpl in *; congruence.
  - change (find (fits rsz) (b :: n :: l''))
      with (if fits rsz b then Some b else find (fits rsz) (n :: l''))
      in Hfind.
    change (alloc_chain rsz (b :: n :: l''))
      with (if fits rsz b then carve rsz b ++ n :: l''
            else b :: alloc_chain rsz (n :: l'')).
    pose proof Ht as (Hba & Hbs & Ht').
    destruct (tiles_bounds _ _ _ (Z.lt_le_incl _ _ HH) Ht') as (Hle & Hall).
    apply naf_cons in Hnaf. destruct Hnaf as (Hbn & Hnaf).
    destruct (fits rsz b) eqn:Hfit.
    + (* [b] is chosen *)
      injection Hfind as <-.
      unfold fits in Hfit. apply andb_prop in Hfit.
      destruct Hfit as (Hbf & Hge). apply Z.leb_le in Hge.
      assert (Hrest : mark_free (b_addr b) (n :: l'') = n :: l'').
      { apply mark_free_id. intros d Hd E. destruct (Hall d Hd). lia. }
      assert (Hfix : coalesce_from b (n :: l'') = b :: n :: l'').
      { apply coalesce_from_fixed. apply naf_cons. auto. }
      unfold carve, splits.
      destruct (wrap (rsz + HEADER_SIZE + 8) <=? b_size b) eqn:Hsp.
      * rewrite wrap_small in Hsp by (abi; lia). apply Z.leb_le in Hsp.
        unfold mark_free in *. rewrite map_app, Hrest.
        cbn [app map b_addr b_size b_free].
        rewrite Z.eqb_refl.
        assert (E : (b_addr b + HEADER_SIZE + rsz =? b_addr b) = false)
          by (apply Z.eqb_neq; lia).
        rewrite E. eexists. eexists. split; [reflexivity|].
        split; [|cbn; congruence].
        cbn [coalesce_from b_free andb].
        replace (merge _ _) with b; [exact Hfix|].
        unfold merge. cbn [b_addr b_size b_free].
        rewrite (wrap_small (b_size b - rsz - HEADER_SIZE)) by (abi; lia).
        rewrite (wrap_small (HEADER_SIZE + _)) by (abi; lia).
        rewrite wrap_small by (abi; lia).
        replace (rsz + (HEADER_SIZE + (b_size b - rsz - HEADER_SIZE)))
          with (b_size b) by lia.
        destruct b; simpl in *; congruence.
      * unfold mark_free in *. rewrite map_app, Hrest.
        cbn [app map taken b_addr b_size b_free].
        rewrite Z.eqb_refl. eexists. eexists. split; [reflexivity|].
        split; [|cbn; congruence].
        replace {| b_addr := b_addr b; b_size := b_size b; b_free := true |}
          with b by (destruct b; simpl in *; congruence).
        exact Hfix.
    + (* the chosen block lies further on *)
      assert (He' : e - (a + HEADER_SIZE + b_size b) <= HEAP_SIZE) by lia.
      destruct (IH n _ _ c Ht' He' Hnaf Hfind) as (x & xs & Em & Ec & Ef).
      pose proof (find_some _ _ Hfind) as (Hc & _).
      destruct (Hall c Hc) as (Hclo & _).
      cbn [mark_free map]. fold (mark_free (b_addr c) (alloc_chain rsz (n :: l''))).
      rewrite Em.
      assert (E : (b_addr b =? b_addr c) = false) by (apply Z.eqb_neq; lia).
      rewrite E. exists b, (x :: xs). split; [reflexivity|].
      split; [|reflexivity].
      cbn [coalesce_from]. rewrite Ef.
      cbn [next_free] in Hbn.
      destruct (b_free b) eqn:E1, (b_free n) eqn:E2; simpl;
        try (f_equal; exact Ec).
      exfalso. apply Hbn. auto.
Qed.

(** X8. On a well-formed heap without adjacent free blocks, releasing
    the pointer a successful [malloc] has just returned restores the
    chain the heap had before the call, and the same request is then
    served with the same pointer again. *)
Theorem malloc_free_round_trip st l fuel n p st1 :
  heap_inv st l -> no_adjacent_free l ->
  malloc fuel st n = Done (p, st1) -> p <> 0 ->
  (S (length l) < fuel)%nat ->
  exists st2 st3,
    free fuel st1 p = Done st2 /\
    heap_inv st2 l /\
    malloc fuel st2 n = Done (p, st3).
Proof.
  intros Hinv Hnaf Hrun Hp Hf. pose proof Hinv as (_ & Ht).
  destruct (malloc_cases _ _ _ _ _ _ Hinv Hrun)
    as [(_ & -> & _) | (c & Hfind & -> & Hinv1 & Hfl & _)]; [congruence|].
  destruct (alloc_chain_chosen _ _ _ Hfind) as (c' & Hc' & Ea & _).
  pose proof (alloc_chain_length (align n) l) as Hlen.
  assert (Hin : In (b_addr c + HEADER_SIZE - HEADER_SIZE)
                   (map b_addr (alloc_chain (align n) l))).
  { replace (b_addr c + HEADER_SIZE - HEADER_SIZE) with (b_addr c') by lia.
    apply in_map. exact Hc'. }
  destruct (free_run st1 _ fuel _ Hinv1 Hin Hp ltac:(lia))
    as (m2 & Hrun2 & Hinv2 & _).
  replace (b_addr c + HEADER_SIZE - HEADER_SIZE) with (b_addr c) in Hinv2
    by lia.
  assert (Hback : coalesce (mark_free (b_addr c) (alloc_chain (align n) l)) = l).
  { destruct l as [|b l']; [discriminate|].
    assert (He : heap_area + HEAP_SIZE - heap_area <= HEAP_SIZE) by lia.
    destruct (round_trip_chain _ (align_nonneg n) _ _ _ _ c Ht He Hnaf Hfind)
      as (x & xs & Em & Ec & _).
    rewrite Em. exact Ec. }
  rewrite Hback in Hinv2.
  pose proof (malloc_run _ l fuel n Hinv2 ltac:(lia)) as Hm.
  rewrite Hfind in Hm. destruct Hm as (m3 & Hrun3 & _).
  eexists. eexists. split; [exact Hrun2|]. split; [exact Hinv2|].
  exact Hrun3.
Qed.


(** ** Further invariants of reachable states *)

Lemma alloc_chain_head rsz l :
  next_free (alloc_chain rsz l) = true -> next_free l = true.
Proof.
  destruct l as [|b l]; simpl; [auto|].
  destruct (fits rsz b); [|auto].
  unfold carve. destruct (splits rsz b); simpl; discriminate.
Qed.

Lemma alloc_chain_naf rsz : forall l,
  no_adjacent_free l -> no_adjacent_free (alloc_chain rsz l).
Proof.
  induction l as [|b l IH]; intros Hn; [exact I|].
  apply naf_cons in Hn. destruct Hn as (Hb & Hn). cbn [alloc_chain].
  destruct (fits rsz b) eqn:Hfit.
  - unfold fits in Hfit. apply andb_prop in Hfit. destruct Hfit as (Hbf & _).
    unfold carve. destruct (splits rsz b); cbn [app].
    + apply naf_cons. split; [intros (E & _); discriminate|].
      apply naf_cons. split; [|exact Hn]. intros (_ & E). apply Hb. auto.
    + apply naf_cons. split; [intros (E & _); discriminate | exact Hn].
  - apply naf_cons. split; [|apply IH; exact Hn].
    intros (E1 & E2). apply Hb. split; [exact E1|].
    eapply alloc_chain_head. exact E2.
Qed.

Lemma alloc_chain_aligned rsz : 0 <= rsz -> (8 | rsz) -> (8 | HEADER_SIZE) ->
  forall l a e, tiles a l e -> e - a <= HEAP_SIZE ->
  sizes_aligned l -> sizes_aligned (alloc_chain rsz l).
Proof.
  intros Hrsz Hr8 Hh8. unfold sizes_aligned.
  induction l as [|b l IH]; intros a e Ht He Hs; [exact Hs|].
  destruct Ht as (Hba & Hbs & Ht).
  pose proof (Forall_inv Hs) as Hb8. pose proof (Forall_inv_tail Hs) as Hl8.
  assert (HH : 0 <= HEADER_SIZE) by (abi; lia).
  destruct (tiles_bounds _ _ _ HH Ht) as (Hle & _).
  cbn [alloc_chain]. destruct (fits rsz b) eqn:Hfit.
  - unfold fits in Hfit. apply andb_prop in Hfit. destruct Hfit as (_ & Hge).
    apply Z.leb_le in Hge. unfold carve, splits.
    destruct (wrap (rsz + HEADER_SIZE + 8) <=? b_size b) eqn:Hsp.
    + rewrite wrap_small in Hsp by (abi; lia). apply Z.leb_le in Hsp.
      rewrite wrap_small by (abi; lia). cbn [app].
      constructor; [exact Hr8|]. constructor; [|exact Hl8].
      cbn [b_size]. apply Z.divide_sub_r; [|exact Hh8].
      apply Z.divide_sub_r; assumption.
    + cbn [app]. constructor; [exact Hb8 | exact Hl8].
  - constructor; [exact Hb8|]. apply (IH _ _ Ht); [lia | exact Hl8].
Qed.

Lemma coalesce_from_aligned : (8 | HEADER_SIZE) ->
  forall rest c a e,
  tiles a (c :: rest) e -> 0 <= a -> e - a <= HEAP_SIZE ->
  sizes_aligned (c :: rest) -> sizes_aligned (coalesce_from c rest).
Proof.
  intros Hh8. unfold sizes_aligned.
  induction rest as [|n rest IH]; intros c a e Ht Ha He Hs; [exact Hs|].
  cbn [coalesce_from].
  assert (HH : 0 <= HEADER_SIZE) by (abi; lia).
  pose proof Ht as (Hca & Hcs & Hna & Hns & Ht').
  destruct (tiles_bounds _ _ _ HH Ht') as (Hle & _).
  pose proof (Forall_inv Hs) as Hc8. pose proof (Forall_inv_tail Hs) as Hl8.
  pose proof (Forall_inv Hl8) as Hn8. pose proof (Forall_inv_tail Hl8) as Hr8.
  destruct (b_free c && b_free n).
  - apply (IH (merge c n) a e); [|assumption..|].
    + cbn [tiles merge b_addr b_size].
      rewrite (wrap_small (HEADER_SIZE + b_size n)) by (abi; lia).
      rewrite wrap_small by (abi; lia).
      repeat split; [assumption | lia |].
      replace (a + HEADER_SIZE + (b_size c + (HEADER_SIZE + b_size n)))
        with (a + HEADER_SIZE + b_size c + HEADER_SIZE + b_size n) by lia.
      exact Ht'.
    + constructor; [|exact Hr8]. cbn [merge b_size].
      rewrite (wrap_small (HEADER_SIZE + b_size n)) by (abi; lia).
      rewrite wrap_small by (abi; lia).
      apply Z.divide_add_r; [exact Hc8|]. apply Z.divide_add_r; assumption.
  - constructor; [exact Hc8|].
    apply (IH n (a + HEADER_SIZE + b_size c) e);
      [cbn [tiles]; auto | lia | lia | exact Hl8].
Qed.

Lemma mark_free_aligned blk l :
  sizes_aligned l -> sizes_aligned (mark_free blk l).
Proof.
  unfold sizes_aligned, mark_free. intros Hs. apply Forall_map.
  eapply Forall_impl; [|exact Hs]. intros b Hb. cbv beta.
  destruct (b_addr b =? blk); exact Hb.
Qed.

Lemma align_multiple n : (8 | align n).
Proof. rewrite align_div. exists (wrap (n + 7) / 8). lia. Qed.

Lemma tiles_addr_aligned : (8 | HEADER_SIZE) ->
  forall l a e b, tiles a l e -> (8 | a) -> sizes_aligned l ->
  In b l -> (8 | b_addr b).
Proof.
  intros Hh8. unfold sizes_aligned.
  induction l as [|c l IH]; simpl; intros a e b Ht Ha Hs Hb; [contradiction|].
  destruct Ht as (Hca & _ & Ht).
  pose proof (Forall_inv Hs) as Hc8. pose proof (Forall_inv_tail Hs) as Hl8.
  destruct Hb as [<-|Hb]; [now rewrite Hca|].
  apply (IH _ _ b Ht); auto.
  apply Z.divide_add_r; [|exact Hc8]. apply Z.divide_add_r; assumption.
Qed.

Lemma reachable_shape st :
  reachable st ->
  exists l, heap_inv st l /\ no_adjacent_free l /\
            ((8 | HEADER_SIZE) -> sizes_aligned l).
Proof.
  induction 1 as [st | st fuel n p st' Hr (l & Hinv & Hnaf & Hal) Hrun
                 | st fuel ptr st' l0 Hr (l & Hinv & Hnaf & Hal) Hc0 Hptr Hrun
                 | st l0 b x v Hr (l & Hinv & Hnaf & Hal) Hc0 Hb Hbf Hx].
  - eexists. split; [apply init_heap_inv|]. split; [simpl; auto|].
    intros Hh8. constructor; [|constructor]. cbn [b_size].
    apply Z.divide_sub_r; [|exact Hh8]. exists 8192. reflexivity.
  - pose proof Hinv as (_ & Ht).
    destruct (malloc_cases _ _ _ _ _ _ Hinv Hrun)
      as [(_ & _ & ->) | (c & _ & _ & Hinv' & _)]; [eauto|].
    eexists. split; [exact Hinv'|]. split; [apply alloc_chain_naf; exact Hnaf|].
    intros Hh8.
    apply (alloc_chain_aligned _ (align_nonneg n) (align_multiple n) Hh8
             _ _ _ Ht); [lia | auto].
  - destruct (Z.eq_dec ptr 0) as [->|Hnz].
    + unfold free in Hrun. simpl in Hrun. injection Hrun as <-. eauto.
    + destruct Hptr as [?|Hin]; [contradiction|].
      pose proof Hinv as (Hc & Ht).
      rewrite (chain_det _ _ _ _ Hc0 Hc) in Hin.
      apply (free_done _ _ (Nat.max fuel (S (length l)))) in Hrun; [|lia].
      destruct (free_run st l (Nat.max fuel (S (length l))) ptr Hinv Hin Hnz
                  ltac:(lia)) as (m' & Hrun' & Hinv' & _).
      rewrite Hrun in Hrun'. injection Hrun' as ->.
      eexists. split; [exact Hinv'|].
      pose proof (mark_free_tiles (ptr - HEADER_SIZE) _ _ _ Ht) as Ht1.
      destruct (mark_free (ptr - HEADER_SIZE) l) as [|c rest] eqn:Em;
        [split; [exact I | intros _; constructor]|].
      split; [apply coalesce_from_no_adjacent_free|].
      intros Hh8. cbn [coalesce].
      apply (coalesce_from_aligned Hh8 _ _ _ _ Ht1); [abi; lia | lia |].
      rewrite <- Em. apply mark_free_aligned. auto.
  - pose proof Hinv as (Hc & _).
    rewrite (chain_det _ _ _ _ Hc0 Hc) in Hb.
    exists l. split; [eapply write_payload_inv; eauto | auto].
Qed.

(** X9. In every reachable state, not only right after a [free], no two
    neighbours of the chain are both free. *)
Theorem reachable_no_adjacent_free st :
  reachable st ->
  exists l, chain (heap st) (free_list st) l /\ no_adjacent_free l.
Proof.
  intros Hr. destruct (reachable_shape st Hr) as (l & (Hc & _) & Hnaf & _).
  eauto.
Qed.

(** X10. When the header size and the address of the arena are multiples
    of 8, every pointer [malloc] returns in a reachable state is a
    multiple of 8. *)
Theorem malloc_pointer_aligned st fuel n p st' :
  reachable st -> (8 | HEADER_SIZE) -> (8 | heap_area) ->
  malloc fuel st n = Done (p, st') ->
  (8 | p).
Proof.
  intros Hr Hh8 Ha8 Hrun.
  destruct (reachable_shape st Hr) as (l & Hinv & _ & Hal).
  pose proof Hinv as (_ & Ht).
  destruct (malloc_cases _ _ _ _ _ _ Hinv Hrun)
    as [(_ & -> & _) | (c & Hfind & -> & _)]; [apply Z.divide_0_r|].
  apply find_some in Hfind. destruct Hfind as (Hc & _).
  apply Z.divide_add_r; [|exact Hh8].
  eapply (tiles_addr_aligned Hh8); eauto.
Qed.

Lemma coalesce_from_all_free : forall rest c,
  b_free c = true -> Forall (fun b => b_free b = true) rest ->
  exists c', coalesce_from c rest = [c'] /\ b_free c' = true.
Proof.
  induction rest as [|n rest IH]; intros c Hc Hall.
  - exists c. auto.
  - cbn [coalesce_from]. rewrite Hc, (Forall_inv Hall). cbn [andb].
    apply IH; [exact Hc | exact (Forall_inv_tail Hall)].
Qed.

(** X11. On a well-formed heap, when every other block of the chain is
    free, releasing block [b] leaves the heap as [init_heap] makes it:
    one free block that spans the arena. *)
Theorem free_last_block st l b fuel :
  heap_inv st l -> In b l ->
  (forall d, In d l -> d <> b -> b_free d = true) ->
  (length l < fuel)%nat ->
  exists st',
    free fuel st (b_addr b + HEADER_SIZE) = Done st' /\
    heap_inv st' [whole_arena].
Proof.
  intros Hinv Hb Hothers Hf. pose proof Hinv as (_ & Ht).
  destruct (block_in_arena _ _ Ht Hb) as (Hlo & _).
  pose proof header_size_pos as HH.
  assert (Hptr : b_addr b + HEADER_SIZE <> 0) by lia.
  assert (Hin : In (b_addr b + HEADER_SIZE - HEADER_SIZE) (map b_addr l)).
  { replace (b_addr b + HEADER_SIZE - HEADER_SIZE) with (b_addr b) by lia.
    apply in_map. exact Hb. }
  destruct (free_run st l fuel _ Hinv Hin Hptr Hf) as (m' & Hrun & Hinv' & _).
  replace (b_addr b + HEADER_SIZE - HEADER_SIZE) with (b_addr b) in * by lia.
  eexists. split; [exact Hrun|].
  assert (Hall : Forall (fun d => b_free d = true) (mark_free (b_addr b) l)).
  { unfold mark_free. apply Forall_map. apply Forall_forall. intros d Hd.
    destruct (Z.eqb_spec (b_addr d) (b_addr b)) as [E|E]; [reflexivity|].
    apply Hothers; [exact Hd | congruence]. }
  destruct (mark_free (b_addr b) l) as [|c rest] eqn:Em.
  { destruct l; [contradiction | discriminate]. }
  destruct (coalesce_from_all_free rest c (Forall_inv Hall)
              (Forall_inv_tail Hall)) as (c' & Ec & Hc'f).
  cbn [coalesce] in Hinv'. rewrite Ec in Hinv'.
  replace whole_arena with c'; [exact Hinv'|].
  destruct Hinv' as (_ & Ha & _ & He). cbn [tiles] in He.
  unfold whole_arena. destruct c' as [ca cs cf].
  cbn [b_addr b_size b_free] in *. f_equal; [auto | lia | auto].
Qed.

Lemma alloc_chain_keeps_allocated rsz : forall l d,
  In d l -> b_free d = false -> In d (alloc_chain rsz l).
Proof.
  induction l as [|b l IH]; simpl; intros d Hd Hdf; [contradiction|].
  destruct (fits rsz b) eqn:Hfit.
  - apply in_or_app. right. destruct Hd as [<-|Hd]; [|exact Hd].
    unfold fits in Hfit. rewrite Hdf in Hfit. discriminate.
  - destruct Hd as [<-|Hd]; [now left | right; auto].
Qed.

(** X12. On a well-formed heap an allocated block stays in the chain,
    at its address and with its size, across any call of [malloc] and
    across any [free] of another block: it is never split, merged or
    handed out again. *)
Theorem allocated_blocks_persist st l d :
  heap_inv st l -> In d l -> b_free d = false ->
  (forall fuel n p st',
     malloc fuel st n = Done (p, st') ->
     p <> b_addr d + HEADER_SIZE /\
     exists l', chain (heap st') (free_list st') l' /\ In d l') /\
  (forall fuel b st',
     In b l -> b <> d ->
     free fuel st (b_addr b + HEADER_SIZE) = Done st' ->
     exists l', chain (heap st') (free_list st') l' /\ In d l').
Proof.
  intros Hinv Hd Hdf. pose proof Hinv as (Hc & Ht).
  destruct (block_in_arena _ _ Ht Hd) as (Hdlo & _).
  pose proof header_size_pos as HH. split.
  - intros fuel n p st' Hrun.
    destruct (malloc_cases _ _ _ _ _ _ Hinv Hrun)
      as [(_ & -> & ->) | (c & Hfind & -> & (Hch & _) & _)].
    + split; [lia | eauto].
    + apply find_some in Hfind. destruct Hfind as (Hcin & Hfit).
      split.
      * intros E. assert (c = d) as ->.
        { eapply tiles_addr_inj; [exact Ht | exact Hcin | exact Hd | lia]. }
        unfold fits in Hfit. rewrite Hdf in Hfit. discriminate.
      * eexists. split; [exact Hch|].
        apply alloc_chain_keeps_allocated; assumption.
  - intros fuel b st' Hb Hne Hrun.
    destruct (block_in_arena _ _ Ht Hb) as (Hlo & _).
    assert (Hptr : b_addr b + HEADER_SIZE <> 0) by lia.
    assert (Hin : In (b_addr b + HEADER_SIZE - HEADER_SIZE) (map b_addr l)).
    { replace (b_addr b + HEADER_SIZE - HEADER_SIZE) with (b_addr b) by lia.
      apply in_map. exact Hb. }
    apply (free_done _ _ (Nat.max fuel (S (length l)))) in Hrun; [|lia].
    destruct (free_run st l (Nat.max fuel (S (length l))) _ Hinv Hin Hptr
                ltac:(lia)) as (m' & Hrun' & (Hch & _) & _).
    rewrite Hrun in Hrun'. injection Hrun' as ->.
    replace (b_addr b + HEADER_SIZE - HEADER_SIZE) with (b_addr b) in Hch
      by lia.
    eexists. split; [exact Hch|].
    assert (Hdm : In d (mark_free (b_addr b) l)).
    { unfold mark_free. apply in_map_iff. exists d. split; [|exact Hd].
      destruct (Z.eqb_spec (b_addr d) (b_addr b)) as [E|E]; [|reflexivity].
      exfalso. apply Hne. symmetry.
      eapply tiles_addr_inj; [exact Ht | exact Hd | exact Hb | exact E]. }
    destruct (mark_free (b_addr b) l) as [|c rest]; [contradiction|].
    apply coalesce_from_keeps_allocated; assumption.
Qed.


Lemma naf_prefix : forall l1 l2,
  no_adjacent_free (l1 ++ l2) -> no_adjacent_free l1.
Proof.
  induction l1 as [|b l1 IH]; intros l2 Hn; [exact I|].
  rewrite <- app_comm_cons in Hn. apply naf_cons in Hn.
  destruct Hn as (Hb & Hn). apply naf_cons. split; [|eapply IH; exact Hn].
  intros (E1 & E2). apply Hb. split; [exact E1|].
  destruct l1; [discriminate | exact E2].
Qed.

Lemma naf_suffix : forall l1 l2,
  no_adjacent_free (l1 ++ l2) -> no_adjacent_free l2.
Proof.
  induction l1 as [|b l1 IH]; intros l2 Hn; [exact Hn|].
  rewrite <- app_comm_cons in Hn. apply naf_cons in Hn.
  destruct Hn as (_ & Hn). eapply IH. exact Hn.
Qed.

Lemma coalesce_app : forall l1 x rest,
  no_adjacent_free (l1 ++ [x]) ->
  coalesce (l1 ++ x :: rest) = l1 ++ coalesce_from x rest.
Proof.
  induction l1 as [|y l1 IH]; intros x rest Hn; [reflexivity|].
  rewrite <- app_comm_cons in Hn. apply naf_cons in Hn.
  destruct Hn as (Hy & Hn). specialize (IH x rest Hn).
  rewrite <- !app_comm_cons. cbn [coalesce].
  destruct l1 as [|z l1].
  - cbn [app coalesce_from] in *. cbn [next_free] in Hy.
    destruct (b_free y) eqn:E1, (b_free x) eqn:E2; simpl; try reflexivity.
    exfalso. apply Hy. auto.
  - rewrite <- !app_comm_cons in *. cbn [coalesce_from].
    cbn [coalesce] in IH. cbn [next_free] in Hy.
    destruct (b_free y) eqn:E1, (b_free z) eqn:E2; simpl;
      try (f_equal; exact IH).
    exfalso. apply Hy. auto.
Qed.

(** X13. On a well-formed heap without adjacent free blocks, releasing an
    allocated block that lies between two free blocks leaves a single
    free block in their place, at the address of the first and as large
    as the three payloads plus the two headers in between. *)
Theorem free_merges_both_neighbours st l1 a b c l2 fuel :
  heap_inv st (l1 ++ a :: b :: c :: l2) ->
  no_adjacent_free (l1 ++ a :: b :: c :: l2) ->
  b_free a = true -> b_free b = false -> b_free c = true ->
  (length (l1 ++ a :: b :: c :: l2) < fuel)%nat ->
  exists st',
    free fuel st (b_addr b + HEADER_SIZE) = Done st' /\
    heap_inv st'
      (l1 ++
       {| b_addr := b_addr a;
          b_size := b_size a + HEADER_SIZE + b_size b +
                    HEADER_SIZE + b_size c;
          b_free := true |} :: l2).
Proof.
  intros Hinv Hnaf Ha Hb Hc Hf. pose proof Hinv as (_ & Ht).
  set (l := l1 ++ a :: b :: c :: l2) in *.
  assert (Hbin : In b l).
  { apply in_or_app. right. right. now left. }
  destruct (block_in_arena _ _ Ht Hbin) as (Hlo & _).
  pose proof header_size_pos as HH.
  assert (Hptr : b_addr b + HEADER_SIZE <> 0) by lia.
  assert (Hin : In (b_addr b + HEADER_SIZE - HEADER_SIZE) (map b_addr l)).
  { replace (b_addr b + HEADER_SIZE - HEADER_SIZE) with (b_addr b) by lia.
    apply in_map. exact Hbin. }
  destruct (free_run st l fuel _ Hinv Hin Hptr Hf) as (m' & Hrun & Hinv' & _).
  replace (b_addr b + HEADER_SIZE - HEADER_SIZE) with (b_addr b) in * by lia.
  eexists. split; [exact Hrun|].
  (* the chain with [b] marked free *)
  assert (Hother : forall d, In d l -> d <> b ->
                            (b_addr d =? b_addr b) = false).
  { intros d Hd Hne. apply Z.eqb_neq. intros E. apply Hne.
    eapply tiles_addr_inj; [exact Ht | exact Hd | exact Hbin | exact E]. }
  assert (Hmark : mark_free (b_addr b) l =
                  l1 ++ a ::
                  {| b_addr := b_addr b; b_size := b_size b; b_free := true |}
                  :: c :: l2).
  { subst l. unfold mark_free. rewrite map_app. cbn [map].
    rewrite Z.eqb_refl.
    rewrite (Hother a), (Hother c);
      [ | apply in_or_app; right; right; right; now left | congruence
        | apply in_or_app; right; now left | congruence ].
    f_equal; [|f_equal; f_equal; f_equal].
    - apply (mark_free_id (b_addr b)). intros d Hd E. exfalso.
      clear - Ht Hd HH ABI E.
      apply tiles_app in Ht. destruct Ht as (mid & Ht1 & Ht2).
      destruct (tiles_bounds _ _ _ (Z.lt_le_incl _ _ HH) Ht1) as (_ & Hall).
      pose proof (tiles_size_nonneg _ _ _ _ Ht1 Hd).
      destruct (Hall _ Hd). destruct Ht2 as (Ea & Hs & Eb & _). lia.
    - apply (mark_free_id (b_addr b)). intros d Hd E. exfalso.
      clear - Ht Hd HH ABI E.
      apply tiles_app in Ht. destruct Ht as (mid & _ & Ht2).
      destruct Ht2 as (_ & _ & Eb & Hbs & _ & Hcs & Ht3).
      destruct (tiles_bounds _ _ _ (Z.lt_le_incl _ _ HH) Ht3) as (_ & Hall).
      destruct (Hall _ Hd). lia. }
  rewrite Hmark in Hinv'.
  assert (Hpre : no_adjacent_free (l1 ++ [a])).
  { apply (naf_prefix _ (b :: c :: l2)). rewrite <- app_assoc. exact Hnaf. }
  rewrite coalesce_app in Hinv' by exact Hpre.
  cbn [coalesce_from b_free] in Hinv'. rewrite Ha in Hinv'.
  cbn [andb] in Hinv'. unfold merge in Hinv'.
  cbn [b_free b_addr b_size] in Hinv'. rewrite Ha, Hc in Hinv'.
  cbn [andb] in Hinv'.
  (* sizes do not wrap *)
  pose proof Ht as Ht'. subst l. apply tiles_app in Ht'.
  destruct Ht' as (mid & Ht1 & Eaa & Has & Eba & Hbs & Eca & Hcs & Ht3).
  destruct (tiles_bounds _ _ _ (Z.lt_le_incl _ _ HH) Ht1) as (Hle1 & _).
  destruct (tiles_bounds _ _ _ (Z.lt_le_incl _ _ HH) Ht3) as (Hle3 & _).
  rewrite (wrap_small (HEADER_SIZE + b_size b)) in Hinv' by (abi; lia).
  rewrite (wrap_small (b_size a + _)) in Hinv' by (abi; lia).
  rewrite (wrap_small (HEADER_SIZE + b_size c)) in Hinv' by (abi; lia).
  rewrite (wrap_small (b_size a + _ + _)) in Hinv' by (abi; lia).
  replace (b_size a + (HEADER_SIZE + b_size b) + (HEADER_SIZE + b_size c))
    with (b_size a + HEADER_SIZE + b_size b + HEADER_SIZE + b_size c)
    in Hinv' by lia.
  rewrite coalesce_from_fixed in Hinv'; [exact Hinv'|].
  apply naf_cons. cbn [b_free].
  assert (Hsuf : no_adjacent_free (c :: l2)).
  { apply (naf_suffix (l1 ++ [a; b])). rewrite <- app_assoc. exact Hnaf. }
  apply naf_cons in Hsuf. destruct Hsuf as (Hcn & Hn2).
  split; [|exact Hn2]. intros (_ & E). apply Hcn. auto.
Qed.

(** X14. Headers never lie inside a payload: on a well-formed heap a
    write to any payload address leaves the chain as it is, and a
    [malloc] that follows returns the pointer it would have returned
    without the write. *)
Theorem payload_write_keeps_chain st l b x v :
  heap_inv st l -> In b l -> payload b x ->
  heap_inv {| heap := upd (heap st) x v; free_list := free_list st |} l /\
  (forall fuel n p st1,
     (length l < fuel)%nat ->
     malloc fuel st n = Done (p, st1) ->
     exists st1',
       malloc fuel {| heap := upd (heap st) x v; free_list := free_list st |} n
       = Done (p, st1')).
Proof.
  intros Hinv Hb Hx.
  pose proof (write_payload_inv _ _ _ _ v Hinv Hb Hx) as Hinv'.
  split; [exact Hinv'|]. intros fuel n p st1 Hf Hrun.
  pose proof (malloc_run _ l fuel n Hinv Hf) as Hm.
  pose proof (malloc_run _ l fuel n Hinv' Hf) as Hm'.
  destruct (find (fits (align n)) l) as [c|].
  - destruct Hm as (m1 & Hrun1 & _). destruct Hm' as (m1' & Hrun1' & _).
    rewrite Hrun in Hrun1. injection Hrun1 as -> _. eauto.
  - rewrite Hrun in Hm. injection Hm as -> _. eauto.
Qed.

End Correctness.

(** ** The concrete target: runs and instances *)

Lemma abi_lp64 : abi_ok lp64.
Proof. unfold abi_ok, HEAP_SIZE. cbn. lia. Qed.

Lemma fresh_inv : @heap_inv lp64 fresh [blk0].
Proof. apply (@init_heap_inv lp64 abi_lp64 boot). Qed.

Lemma busy_inv : @heap_inv lp64 busy busy_chain.
Proof.
  split; vm_compute; repeat split; try discriminate; reflexivity.
Qed.

Lemma busy_reachable : @reachable lp64 busy.
Proof.
  assert (R1 : @reachable lp64 busy1).
  { apply (@reach_malloc lp64 fresh 2 100 4120); [apply reach_init|].
    vm_compute. reflexivity. }
  assert (R2 : @reachable lp64 busy2).
  { apply (@reach_malloc lp64 busy1 3 200 4248); [exact R1|].
    vm_compute. reflexivity. }
  assert (R3 : @reachable lp64 busy3).
  { apply (@reach_malloc lp64 busy2 4 50 4472); [exact R2|].
    vm_compute. reflexivity. }
  apply (@reach_free lp64 busy3 5 4120 busy
           [ {| b_addr := 4096; b_size := 104; b_free := false |};
             blkB; blkC; blkR ]); [exact R3 | | | ].
  - vm_compute. repeat split; try discriminate; reflexivity.
  - right. vm_compute. auto.
  - vm_compute. reflexivity.
Qed.

(** In [busy] a request of 150 bytes passes the free block of 104 bytes
    and the two allocated blocks and is served from the last block. *)
Lemma malloc_first_fit_witness :
  (exists st', @malloc lp64 5 busy 150 = Done (4528 + 24, st')) /\
  (forall d, In d ([blkA; blkB; blkC] ++ blkR :: []) ->
     b_addr d + 24 = 4528 + 24 -> d = blkR) /\
  (0 <= 150 -> 150 + 7 < 2 ^ 64 -> @align lp64 150 = 8 * ((150 + 7) / 8)).
Proof.
  apply (@malloc_first_fit lp64 abi_lp64 busy [blkA; blkB; blkC] blkR [] 5 150).
  - exact busy_inv.
  - intros b [<-|[<-|[<-|[]]]]; reflexivity.
  - reflexivity.
  - simpl. lia.
Defined.

(** In [busy] a request of 70000 bytes fits nowhere. *)
Lemma malloc_failure_unchanged_witness :
  @malloc lp64 5 busy 70000 = Done (0, busy).
Proof.
  apply (@malloc_failure_unchanged lp64 busy busy_chain 5 70000).
  - apply busy_inv.
  - intros b [<-|[<-|[<-|[<-|[]]]]]; reflexivity.
  - simpl. lia.
Defined.

(** In [busy] a request of 100 bytes is an exact fit for the first block,
    which is handed out whole. *)
Lemma malloc_split_rule_witness :
  exists st',
    @malloc lp64 5 busy 100 = Done (4096 + 24, st') /\
    @chain lp64 (heap st') (free_list st')
      ([] ++ [ {| b_addr := 4096; b_size := 104; b_free := false |} ] ++
       [blkB; blkC; blkR]) /\
    (104 = 104 ->
     @chain lp64 (heap st') (free_list st')
       ([] ++ taken blkA :: [blkB; blkC; blkR])).
Proof.
  apply (@malloc_split_rule lp64 abi_lp64 busy [] blkA [blkB; blkC; blkR] 5 100).
  - exact busy_inv.
  - intros b [].
  - reflexivity.
  - simpl. lia.
Defined.

(** C4, as stated, fails: right after [init_heap] on [lp64] the only
    block has 65512 bytes, which for a request of 65480 bytes is equal to,
    not greater than, the request plus a header plus 8; [malloc] splits it
    all the same and leaves a free block of 8 bytes. *)
Lemma malloc_splits_at_threshold :
  ~ (b_size blk0 > @align lp64 65480 + @HEADER_SIZE lp64 + 8) /\
  match @malloc lp64 2 fresh 65480 with
  | Done (p, st') =>
      p = 4096 + 24 /\
      @chain lp64 (heap st') (free_list st')
        [ {| b_addr := 4096; b_size := 65480; b_free := false |};
          {| b_addr := 4096 + 24 + 65480; b_size := 8; b_free := true |} ]
  | _ => False
  end.
Proof.
  split; [vm_compute; discriminate|].
  vm_compute. repeat split; discriminate.
Qed.

(** C5 fails on the code: on [lp64], right after [init_heap], a request
    of [2 ^ 64 - 1] bytes is aligned to 0, [malloc] succeeds and the block
    it returns has a recorded size of 0 bytes. *)
Theorem malloc_wrapped_request_undersized :
  @align lp64 (2 ^ 64 - 1) = 0 /\
  match @malloc lp64 2 fresh (2 ^ 64 - 1) with
  | Done (p, st') =>
      p = 4096 + 24 /\
      heap st' (p - @HEADER_SIZE lp64 + OFF_SIZE) = 0 /\
      @chain lp64 (heap st') (free_list st')
        [ {| b_addr := 4096; b_size := 0; b_free := false |};
          {| b_addr := 4096 + 24; b_size := 65488; b_free := true |} ]
  | _ => False
  end.
Proof.
  split; [reflexivity|].
  vm_compute. repeat split; discriminate.
Qed.

(** [busy] is reachable and its chain adds up to the arena. *)
Lemma conservation_witness :
  exists l, @chain lp64 (heap busy) (free_list busy) l /\
            @footprint lp64 l = HEAP_SIZE /\
            (forall n,
               @footprint lp64 (@alloc_chain lp64 (@align lp64 n) l)
               = HEAP_SIZE) /\
            (forall blk,
               @footprint lp64 (@coalesce lp64 (mark_free blk l))
               = HEAP_SIZE).
Proof. exact (@conservation lp64 abi_lp64 busy busy_reachable). Defined.

Lemma address_order_witness :
  exists l, @chain lp64 (heap busy) (free_list busy) l /\
            increasing (map b_addr l) /\
            @tiles lp64 4096 l (4096 + HEAP_SIZE) /\
            (forall n,
               increasing
                 (map b_addr (@alloc_chain lp64 (@align lp64 n) l))) /\
            (forall blk,
               increasing (map b_addr (@coalesce lp64 (mark_free blk l)))).
Proof. exact (@address_order lp64 abi_lp64 busy busy_reachable). Defined.

(** Releasing the block of 200 bytes in [busy] merges it into its free
    predecessor. *)
Lemma free_no_adjacent_free_witness :
  4224 + 24 <> 0 /\
  exists st',
    @free lp64 5 busy (4224 + 24) = Done st' /\
    free_list st' = free_list busy /\
    @heap_inv lp64 st'
      [ {| b_addr := 4096; b_size := 104 + 24 + 200; b_free := true |};
        blkC; blkR ] /\
    no_adjacent_free
      [ {| b_addr := 4096; b_size := 104 + 24 + 200; b_free := true |};
        blkC; blkR ].
Proof.
  apply (@free_no_adjacent_free lp64 abi_lp64 busy busy_chain blkB 5).
  - exact busy_inv.
  - right. left. reflexivity.
  - reflexivity.
  - simpl. lia.
Defined.



(** In [busy] the search for 150 bytes and the release of the block of
    200 bytes both return within five iterations. *)
Lemma malloc_free_terminate_witness :
  @malloc lp64 5 busy 150 <> Timeout /\
  @free lp64 5 busy 4248 <> Timeout /\
  (exists r, @malloc lp64 5 busy 150 = Done r) /\
  (exists st', @free lp64 5 busy 4248 = Done st').
Proof.
  assert (Hin : 4248 = 0 \/ In (4248 - 24) (map b_addr busy_chain))
    by (right; simpl; auto).
  destruct (@malloc_free_terminate lp64 abi_lp64 busy busy_chain 5 150 4248)
    as (Hm & Hf & Hd).
  - apply busy_inv.
  - simpl. lia.
  - destruct (Hd (proj2 busy_inv)) as (Hdm & Hdf).
    split; [exact Hm|]. split; [|split; [exact Hdm | exact (Hdf Hin)]].
    apply Hf; [|exact Hin].
    exact (@heap_inv_sep lp64 abi_lp64 busy busy_chain busy_inv).
Defined.

(** In [busy] no call of [malloc] and no release of the block of 56 bytes
    changes a cell of the allocated block of 200 bytes. *)
Lemma frame_live_blocks_witness :
  (forall fuel n p st',
     @malloc lp64 fuel busy n = Done (p, st') ->
     unchanged_on (@extent lp64 blkB) (heap busy) (heap st')) /\
  (forall fuel st',
     @free lp64 fuel busy (4448 + 24) = Done st' ->
     unchanged_on (@extent lp64 blkB) (heap busy) (heap st')).
Proof.
  destruct (@frame_live_blocks lp64 abi_lp64 busy busy_chain busy_inv)
    as (Hm & Hf).
  split.
  - intros fuel n p st' Hrun. destruct (Hm fuel n p st' Hrun) as (Hlive & _).
    apply Hlive; [right; left; reflexivity | reflexivity].
  - intros fuel st' Hrun.
    assert (HC : In blkC busy_chain) by (right; right; left; reflexivity).
    destruct (Hf fuel blkC st' HC Hrun) as (Hlive & _).
    apply Hlive; [right; left; reflexivity | reflexivity | discriminate].
Defined.

(** ** Further instances on the concrete target *)

Lemma busy_naf : no_adjacent_free busy_chain.
Proof. simpl. repeat split; try exact I; intros (H1 & H2); discriminate. Qed.

Lemma busy_malloc_150 : @malloc lp64 6 busy 150 = Done (4552, busy4).
Proof. vm_compute. reflexivity. Qed.

Lemma busy1_inv : @heap_inv lp64 busy1 [blkA1; blkR1].
Proof.
  split; vm_compute; repeat split; try discriminate; reflexivity.
Qed.

Lemma busy5_inv : @heap_inv lp64 busy5 ([] ++ blkA :: blkB :: blkCR :: []).
Proof.
  split; vm_compute; repeat split; try discriminate; reflexivity.
Qed.

Lemma init_heap_resets_witness :
  @heap_inv lp64 (@init_heap lp64 boot) [@whole_arena lp64] /\
  free_list (@init_heap lp64 boot) = 4096 /\
  unchanged_on (fun x => ~ (4096 <= x < 4096 + 24))
    (heap boot) (heap (@init_heap lp64 boot)).
Proof. exact (@init_heap_resets lp64 abi_lp64 boot). Defined.

Lemma malloc_null_iff_witness :
  4552 = 0 <->
  forall b, In b busy_chain -> fits (@align lp64 150) b = false.
Proof.
  exact (@malloc_null_iff lp64 abi_lp64 busy busy_chain 6 150 4552 busy4
           busy_inv busy_malloc_150).
Defined.

Lemma malloc_payload_exclusive_witness :
  4096 + 24 <= 4552 /\
  4552 + @align lp64 150 <= 4096 + HEAP_SIZE /\
  (forall d x, In d busy_chain -> b_free d = false ->
               4552 <= x < 4552 + @align lp64 150 -> ~ @extent lp64 d x) /\
  heap busy4 (4552 - 24 + 16) = 0 /\
  @align lp64 150 <= heap busy4 (4552 - 24 + OFF_SIZE).
Proof.
  apply (@malloc_payload_exclusive lp64 abi_lp64 busy busy_chain 6 150 4552
           busy4 busy_inv busy_malloc_150).
  discriminate.
Defined.

Lemma malloc_too_large_fails_witness :
  @malloc lp64 5 busy 70000 = Done (0, busy).
Proof.
  apply (@malloc_too_large_fails lp64 abi_lp64 busy busy_chain 5 70000).
  - exact busy_inv.
  - vm_compute. reflexivity.
  - simpl. lia.
Defined.

Lemma malloc_size_max_wraps_witness :
  @align lp64 (2 ^ 64 - 1) = 0 /\
  @malloc lp64 5 busy (2 ^ 64 - 1) = @malloc lp64 5 busy 0.
Proof.
  apply (@malloc_size_max_wraps lp64 abi_lp64 5 busy (2 ^ 64 - 1)).
  split; vm_compute; [discriminate | reflexivity].
Defined.

Lemma malloc_zero_witness :
  exists st',
    @malloc lp64 5 busy 0 = Done (4096 + 24, st') /\
    (24 + 8 <= 104 -> heap st' (4096 + OFF_SIZE) = 0).
Proof.
  apply (@malloc_zero lp64 abi_lp64 busy [] blkA [blkB; blkC; blkR] 5).
  - exact busy_inv.
  - intros b [].
  - reflexivity.
  - simpl. lia.
Defined.

Lemma double_free_harmless_witness :
  exists st',
    @free lp64 5 busy (4096 + 24) = Done st' /\
    @heap_inv lp64 st' busy_chain /\
    unchanged_on (fun x => x <> 4096 + 16) (heap busy) (heap st').
Proof.
  apply (@double_free_harmless lp64 abi_lp64 busy busy_chain blkA 5).
  - exact busy_inv.
  - exact busy_naf.
  - left. reflexivity.
  - reflexivity.
  - simpl. lia.
Defined.

Lemma malloc_free_round_trip_witness :
  exists st2 st3,
    @free lp64 6 busy4 4552 = Done st2 /\
    @heap_inv lp64 st2 busy_chain /\
    @malloc lp64 6 st2 150 = Done (4552, st3).
Proof.
  apply (@malloc_free_round_trip lp64 abi_lp64 busy busy_chain 6 150 4552
           busy4 busy_inv busy_naf busy_malloc_150).
  - discriminate.
  - simpl. lia.
Defined.

Lemma reachable_no_adjacent_free_witness :
  exists l, @chain lp64 (heap busy) (free_list busy) l /\
            no_adjacent_free l.
Proof.
  exact (@reachable_no_adjacent_free lp64 abi_lp64 busy busy_reachable).
Defined.

Lemma malloc_pointer_aligned_witness : (8 | 4552).
Proof.
  apply (@malloc_pointer_aligned lp64 abi_lp64 busy 6 150 4552 busy4).
  - exact busy_reachable.
  - exists 3. reflexivity.
  - exists 512. reflexivity.
  - exact busy_malloc_150.
Defined.

Lemma free_last_block_witness :
  exists st',
    @free lp64 3 busy1 (4096 + 24) = Done st' /\
    @heap_inv lp64 st' [@whole_arena lp64].
Proof.
  apply (@free_last_block lp64 abi_lp64 busy1 [blkA1; blkR1] blkA1 3).
  - exact busy1_inv.
  - left. reflexivity.
  - intros d [<-|[<-|[]]] Hne; [contradiction | reflexivity].
  - simpl. lia.
Defined.

Lemma allocated_blocks_persist_witness :
  (forall fuel n p st',
     @malloc lp64 fuel busy n = Done (p, st') ->
     p <> 4224 + 24 /\
     exists l', @chain lp64 (heap st') (free_list st') l' /\ In blkB l') /\
  (forall fuel st',
     @free lp64 fuel busy (4448 + 24) = Done st' ->
     exists l', @chain lp64 (heap st') (free_list st') l' /\ In blkB l').
Proof.
  destruct (@allocated_blocks_persist lp64 abi_lp64 busy busy_chain blkB)
    as (Hm & Hf).
  - exact busy_inv.
  - right. left. reflexivity.
  - reflexivity.
  - split; [exact Hm|]. intros fuel st' Hrun.
    apply (Hf fuel blkC st'); [| discriminate | exact Hrun].
    right. right. left. reflexivity.
Defined.

Lemma free_merges_both_neighbours_witness :
  exists st',
    @free lp64 4 busy5 (4224 + 24) = Done st' /\
    @heap_inv lp64 st'
      ([] ++ {| b_addr := 4096; b_size := 104 + 24 + 200 + 24 + 65160;
                b_free := true |} :: []).
Proof.
  apply (@free_merges_both_neighbours lp64 abi_lp64 busy5
           [] blkA blkB blkCR [] 4).
  - exact busy5_inv.
  - simpl. repeat split; try exact I; intros (H1 & H2); discriminate.
  - reflexivity.
  - reflexivity.
  - reflexivity.
  - simpl. lia.
Defined.

Lemma payload_write_keeps_chain_witness :
  @heap_inv lp64
    {| heap := upd (heap busy) 4250 255; free_list := free_list busy |}
    busy_chain /\
  (forall fuel n p st1,
     (length busy_chain < fuel)%nat ->
     @malloc lp64 fuel busy n = Done (p, st1) ->
     exists st1',
       @malloc lp64 fuel
         {| heap := upd (heap busy) 4250 255; free_list := free_list busy |} n
       = Done (p, st1')).
Proof.
  apply (@payload_write_keeps_chain lp64 abi_lp64 busy busy_chain blkB
           4250 255).
  - exact busy_inv.
  - right. left. reflexivity.
  - vm_compute. split; [discriminate | reflexivity].
Defined.

(** ** A finite chain on which [free] does not stop *)

(** Once the node at 4104 is free and is its own successor, every
    iteration merges it with itself and stays on it. *)
Lemma tangled_loop : forall fuel m,
  m 4112 = 4104 -> m 4120 <> 0 ->
  @free_loop lp64 fuel m 4104 = Timeout.
Proof.
  induction fuel as [|fuel IH]; intros m Hnext Hflag; [reflexivity|].
  rewrite (@free_loop_step lp64 abi_lp64) by discriminate.
  change (4104 + @OFF_FREE lp64) with 4120.
  change (4104 + @OFF_NEXT lp64) with 4112.
  rewrite Hnext.
  change (4104 + @OFF_FREE lp64) with 4120.
  change (4104 + @OFF_NEXT lp64) with 4112.
  apply Z.eqb_neq in Hflag. rewrite Hflag.
  cbn [negb andb Z.eqb Pos.eqb]. cbv zeta.
  apply IH.
  - rewrite upd_same. rewrite upd_other by discriminate. exact Hnext.
  - rewrite !upd_other by discriminate. apply Z.eqb_neq. exact Hflag.
Qed.

(** C9, as stated, fails: the chain of [tangled] is finite and acyclic
    and 4128 is the payload pointer of its first block, but the first
    merge of [free] writes the second header's [next] through the first
    header's [size] and links the first node to itself, and from then on
    the loop never leaves it. *)
Lemma free_loops_on_overlapping_headers :
  @chain lp64 (heap tangled) (free_list tangled) tangled_chain /\
  NoDup (map b_addr tangled_chain) /\
  In (4128 - @HEADER_SIZE lp64) (map b_addr tangled_chain) /\
  (forall fuel, @free lp64 fuel tangled 4128 = Timeout).
Proof.
  split; [vm_compute; repeat split; discriminate|].
  split; [repeat constructor; simpl; intuition discriminate|].
  split; [left; reflexivity|].
  intros [|fuel]; [reflexivity|].
  unfold free. change (4128 =? 0) with false. cbv iota zeta.
  change (4128 - @HEADER_SIZE lp64) with 4104.
  rewrite store_ok by discriminate. cbn [bind].
  change (4104 + @OFF_FREE lp64) with 4120. cbn [heap free_list tangled].
  rewrite (@free_loop_step lp64 abi_lp64) by discriminate.
  change (4104 + @OFF_FREE lp64) with 4120.
  change (4104 + @OFF_NEXT lp64) with 4112.
  change (4104 + OFF_SIZE) with 4104.
  set (m0 := upd _ 4120 1).
  assert (E1 : m0 4120 = 1) by reflexivity.
  assert (E2 : m0 4112 = 4096) by reflexivity.
  assert (E3 : m0 4104 = 0) by reflexivity.
  assert (E4 : m0 4096 = 4080) by reflexivity.
  rewrite E1, E2.
  change (4096 + @OFF_FREE lp64) with 4112.
  change (4096 + @OFF_NEXT lp64) with 4104.
  change (4096 + OFF_SIZE) with 4096.
  rewrite E2, E3, E4. cbn [negb andb Z.eqb Pos.eqb]. cbv zeta.
  rewrite (tangled_loop fuel); [reflexivity | | ].
  - rewrite upd_same. rewrite upd_same. vm_compute. reflexivity.
  - rewrite !upd_other by discriminate. rewrite E1. discriminate.
Qed.
